(** * valis-client: the connection lifecycle and the serial command queue

    A shallow embedding of [src/valis-client.ts] (class [ValisClient]) and the
    properties of its request queue, its timeouts, its close path, its
    reconnection back-off and its heartbeat.

    Modelling conventions.
    - The client object is the record [State]; every method and every
      listener of the class is a function [State -> State] with the name it
      has in the source.
    - The browser is part of the state: the sockets created so far with
      their [readyState], the armed timers, and the callers suspended on
      [await this.connect()].  A run is a list of [Input]s: calls of the
      public API, socket events and timer expiries.
    - JavaScript is single threaded: a listener runs to completion, and the
      promise reactions it scheduled run before the next event is taken.  One
      [Input] therefore covers the listener and those reactions.
    - A socket follows the WebSocket API of browsers: [close()] moves it to
      [CLOSING] and its close event is delivered later, as an input of its
      own; the listeners of a socket are those installed by the [connect()]
      that created it, and they act on the client whether or not that socket
      is still the one in [this.ws].
    - Every request timer is armed with the one delay [requestTimeoutMs],
      and the host runs timers of equal delay in the order they were armed.
    - Everything the client does to the outside (frames written, events
      emitted, promises settled) is appended to the [trace] field.  The
      subscribers of the events and the log sink do not call back into the
      client while they run.
    - The numbers of the back-off (the two reconnect delays, the jitter
      fraction, the value of [Math.random()] and the delay computed from
      them) are IEEE 754 binary64 numbers, the primitive [float]s; the two
      options that are only handed to [setTimeout]/[setInterval] and compared
      with zero ([requestTimeoutMs], [heartbeatIntervalMs]) are integers
      ([Z]).  The wall-clock readings of the heartbeat ([rttMs]) are left
      out.
    - [JSON.parse], [JSON.stringify] and the presence of the [WebSocket]
      global belong to the host; they are variables of the section.  The
      URL is one the host accepts. *)

From Stdlib Require Import ZArith String Floats.
From stdpp Require Import base list strings.

Local Open Scope list_scope.

(** ** The numbers of the host *)

(** The double of an integer. *)
Definition number_of_Z (z : Z) : float :=
  SF2Prim (binary_normalize prec emax z 0 false).

(** [Math.pow(2, n)] for a counter [n]: the power of two, [Infinity] from
    [n = 1024] on. *)
Definition Math_pow2 (n : nat) : float := Z.ldexp PrimFloat.one (Z.of_nat n).

(** [Math.min(x, y)]: [NaN] when one of the two is, and [-0] is below [+0]. *)
Definition Math_min (x y : float) : float :=
  if is_nan x || is_nan y then nan
  else if (x <? y)%float then x
  else if (y <? x)%float then y
  else if get_sign x then x else y.

(** [Math.floor(x)]: the largest integer not above [x]; [NaN], the
    infinities and the zeros are returned as they are. *)
Definition Math_floor (x : float) : float :=
  match Prim2SF x with
  | S754_finite sign m e =>
      if (e <? 0)%Z
      then number_of_Z ((if sign then Z.neg m else Z.pos m) / 2 ^ (- e))
      else x
  | _ => x
  end.

(** ** Data model *)

Inductive ValisClientStatus : Type :=
  | idle | connecting | open | reconnecting | closing | closed.

(** [WebSocket.CONNECTING], [OPEN], [CLOSING], [CLOSED]. *)
Inductive ReadyState : Type := CONNECTING | OPEN | CLOSING | CLOSED.

Definition is_OPEN (r : ReadyState) : bool :=
  match r with OPEN => true | _ => false end.

Definition is_CLOSED (r : ReadyState) : bool :=
  match r with CLOSED => true | _ => false end.

(** What the constructor receives for one optional key: the key is not
    there, or it is there and holds a value or [undefined]/[null]. *)
Inductive Field (A : Type) : Type :=
  | absent
  | given (v : option A).
Arguments absent {A}.
Arguments given {A} v.

Record ValisClientOptions : Type := {
  opt_reconnect : Field bool;
  opt_reconnectInitialDelayMs : Field float;
  opt_reconnectMaxDelayMs : Field float;
  opt_reconnectJitter : Field float;
  opt_requestTimeoutMs : Field Z;
  opt_heartbeatIntervalMs : Field Z;
  opt_onLog : Field unit
}.

(** [this.opts]: every key read from it yields a value or [undefined]. *)
Record Options : Type := {
  reconnect : option bool;
  reconnectInitialDelayMs : option float;
  reconnectMaxDelayMs : option float;
  reconnectJitter : option float;
  requestTimeoutMs : option Z;
  heartbeatIntervalMs : option Z;
  onLog : option unit
}.

Definition DEFAULTS : Options := {|
  reconnect := Some true;
  reconnectInitialDelayMs := Some 500%float;
  reconnectMaxDelayMs := Some 12000%float;
  reconnectJitter := Some 0x1.999999999999ap-3%float;   (* 0.2 *)
  requestTimeoutMs := Some 8000%Z;
  heartbeatIntervalMs := Some 15000%Z;
  onLog := None
|}.

(** One key of [{ ...DEFAULTS, ...opts }]: a key of [opts] that is present
    wins, whatever it holds. *)
Definition spread {A : Type} (d : option A) (f : Field A) : option A :=
  match f with
  | absent => d
  | given v => v
  end.

Definition mergeOptions (o : ValisClientOptions) : Options := {|
  reconnect := spread (reconnect DEFAULTS) (opt_reconnect o);
  reconnectInitialDelayMs :=
    spread (reconnectInitialDelayMs DEFAULTS) (opt_reconnectInitialDelayMs o);
  reconnectMaxDelayMs :=
    spread (reconnectMaxDelayMs DEFAULTS) (opt_reconnectMaxDelayMs o);
  reconnectJitter := spread (reconnectJitter DEFAULTS) (opt_reconnectJitter o);
  requestTimeoutMs := spread (requestTimeoutMs DEFAULTS) (opt_requestTimeoutMs o);
  heartbeatIntervalMs :=
    spread (heartbeatIntervalMs DEFAULTS) (opt_heartbeatIntervalMs o);
  onLog := spread (onLog DEFAULTS) (opt_onLog o)
|}.

(** [opts = {}] *)
Definition noOptions : ValisClientOptions := {|
  opt_reconnect := absent;
  opt_reconnectInitialDelayMs := absent;
  opt_reconnectMaxDelayMs := absent;
  opt_reconnectJitter := absent;
  opt_requestTimeoutMs := absent;
  opt_heartbeatIntervalMs := absent;
  opt_onLog := absent
|}.

(** The options of the runs worked out at the end of the file:
    [{ heartbeatIntervalMs: 0, requestTimeoutMs: 10 }] and
    [{ reconnectInitialDelayMs: 0 }]. *)
Definition quiet_options : ValisClientOptions := {|
  opt_reconnect := absent;
  opt_reconnectInitialDelayMs := absent;
  opt_reconnectMaxDelayMs := absent;
  opt_reconnectJitter := absent;
  opt_requestTimeoutMs := given (Some 10%Z);
  opt_heartbeatIntervalMs := given (Some 0%Z);
  opt_onLog := absent
|}.

Definition zero_delay_options : ValisClientOptions := {|
  opt_reconnect := absent;
  opt_reconnectInitialDelayMs := given (Some 0%float);
  opt_reconnectMaxDelayMs := absent;
  opt_reconnectJitter := absent;
  opt_requestTimeoutMs := absent;
  opt_heartbeatIntervalMs := absent;
  opt_onLog := absent
|}.

(** The host of those runs: no message parses as JSON, and the commands
    are strings. *)
Definition opaque_parse (text : string) : option unit := None.
Definition plain_stringify (obj : unit) : string := "{}".

(** [x ?? d] *)
Definition nullish {A : Type} (x : option A) (d : A) : A :=
  match x with
  | Some v => v
  | None => d
  end.

Inductive Error : Type :=
  | TransportUnavailable   (* "WebSocket API not available. ..." *)
  | ConnectTimeout (ms : option Z)   (* "Connect timeout after N ms" *)
  | RequestTimedOut (ms : option Z)  (* "Request timed out after N ms" *)
  | ConnectionClosed                 (* "Connection closed" *)
  | WebSocketError                   (* "WebSocket error" *)
  | HostError (msg : string).        (* an [Error] handed in by the socket *)

Inductive LogLevel : Type := debug | info | warn | error.

(** The resolve/reject pair of one [sendCommand] promise.  [rid] names the
    promise; [from_heartbeat] tells whether the heartbeat callback is the
    caller awaiting it. *)
Record Completion : Type := {
  rid : nat;
  from_heartbeat : bool
}.

Record QueueItem : Type := {
  payload : string;
  completion : Completion;
  timeoutId : nat
}.

(** A [setTimeout] armed by [sendCommand]: its callback closes over
    [payload] and [reject]. *)
Record RequestTimer : Type := {
  timer_id : nat;
  timer_payload : string;
  timer_completion : Completion
}.

(** A [WebSocket] object created by [connect()], with what [connect()]
    attached to it: the four listeners and the connect-timeout timer.  Its
    index in [sockets] also names the promise created by the same call. *)
Record Socket : Type := {
  sock_url : string;
  readyState : ReadyState;
  listeners : bool;
  connectTimeout : bool
}.

Section Client.

(** The host: decoded JSON values, [JSON.parse] (which fails on text that is
    not JSON), [JSON.stringify], and whether [WebSocket] is defined. *)
Variable Json : Type.
Variable JSON_parse : string -> option Json.
Variable JSON_stringify : Json -> string.
Variable WebSocket_defined : bool.

(** [command: string | object] *)
Inductive Command : Type :=
  | CmdText (text : string)
  | CmdObject (obj : Json).

(** [ev.data], before and after decoding. *)
Inductive Data : Type :=
  | Text (text : string)
  | Decoded (j : Json)
  | Binary (blob : string).

(** The payloads of the [Events] map. *)
Inductive Event : Type :=
  | EvOpen
  | EvClose (code : Z) (reason : string)
  | EvError (e : Error)
  | EvMessage (d : Data)
  | EvReconnecting (attempt : nat) (delayMs : float)
  | EvHeartbeat (ok : bool).

(** What the client does to the outside.  [Send] and [Enqueued] carry the
    [rid] of the request concerned, which the source does not pass around:
    it is there to tell two requests with one payload apart. *)
Inductive Effect : Type :=
  | Emit (e : Event)
  | Log (level : LogLevel) (msg : string)
  | Enqueued (who : nat) (text : string)       (* this.queue.push *)
  | Send (sock : nat) (who : nat) (text : string)  (* this.ws.send *)
  | Resolved (who : nat) (d : Data)            (* item.resolve(data) *)
  | Rejected (who : nat) (e : Error)           (* item.reject(error) *)
  | ConnectResolved (sock : nat)               (* resolve() of connect() *)
  | ConnectRejected (sock : nat) (e : Error)   (* reject() of connect() *)
  | CommandFailed (c : Command) (e : Error)    (* sendCommand: connect failed *)
  | Probe.                                     (* heartbeat calls sendCommand *)

(** A caller of [sendCommand] suspended on [await this.connect()]. *)
Record Waiter : Type := {
  awaited : nat;
  command : Command;
  for_heartbeat : bool
}.

Record State : Type := {
  (* the fields of the class *)
  url : string;
  opts : Options;
  ws : option nat;
  status : ValisClientStatus;
  reconnectAttempt : nat;
  connectPromise : option nat;
  heartbeatTimer : option nat;
  awaitingResponse : bool;
  manualClose : bool;
  queue : list QueueItem;
  (* the host *)
  sockets : list Socket;
  requestTimers : list RequestTimer;   (* armed, oldest first *)
  reconnectTimers : nat;               (* armed by scheduleReconnect *)
  waiters : list Waiter;
  nextId : nat;
  (* the record of what was done *)
  trace : list Effect
}.

(** [new ValisClient(url, opts)] *)
Definition new (u : string) (o : ValisClientOptions) : State := {|
  url := u;
  opts := mergeOptions o;
  ws := None;
  status := idle;
  reconnectAttempt := 0;
  connectPromise := None;
  heartbeatTimer := None;
  awaitingResponse := false;
  manualClose := false;
  queue := [];
  sockets := [];
  requestTimers := [];
  reconnectTimers := 0;
  waiters := [];
  nextId := 0;
  trace := []
|}.

(** Field updates. *)
Definition set_ws (v : option nat) (s : State) : State :=
  {| url := url s; opts := opts s; ws := v; status := status s;
     reconnectAttempt := reconnectAttempt s; connectPromise := connectPromise s;
     heartbeatTimer := heartbeatTimer s; awaitingResponse := awaitingResponse s;
     manualClose := manualClose s; queue := queue s; sockets := sockets s;
     requestTimers := requestTimers s; reconnectTimers := reconnectTimers s;
     waiters := waiters s; nextId := nextId s; trace := trace s |}.

Definition setStatus (v : ValisClientStatus) (s : State) : State :=
  {| url := url s; opts := opts s; ws := ws s; status := v;
     reconnectAttempt := reconnectAttempt s; connectPromise := connectPromise s;
     heartbeatTimer := heartbeatTimer s; awaitingResponse := awaitingResponse s;
     manualClose := manualClose s; queue := queue s; sockets := sockets s;
     requestTimers := requestTimers s; reconnectTimers := reconnectTimers s;
     waiters := waiters s; nextId := nextId s; trace := trace s |}.

Definition set_reconnectAttempt (v : nat) (s : State) : State :=
  {| url := url s; opts := opts s; ws := ws s; status := status s;
     reconnectAttempt := v; connectPromise := connectPromise s;
     heartbeatTimer := heartbeatTimer s; awaitingResponse := awaitingResponse s;
     manualClose := manualClose s; queue := queue s; sockets := sockets s;
     requestTimers := requestTimers s; reconnectTimers := reconnectTimers s;
     waiters := waiters s; nextId := nextId s; trace := trace s |}.

Definition set_connectPromise (v : option nat) (s : State) : State :=
  {| url := url s; opts := opts s; ws := ws s; status := status s;
     reconnectAttempt := reconnectAttempt s; connectPromise := v;
     heartbeatTimer := heartbeatTimer s; awaitingResponse := awaitingResponse s;
     manualClose := manualClose s; queue := queue s; sockets := sockets s;
     requestTimers := requestTimers s; reconnectTimers := reconnectTimers s;
     waiters := waiters s; nextId := nextId s; trace := trace s |}.

Definition set_heartbeatTimer (v : option nat) (s : State) : State :=
  {| url := url s; opts := opts s; ws := ws s; status := status s;
     reconnectAttempt := reconnectAttempt s; connectPromise := connectPromise s;
     heartbeatTimer := v; awaitingResponse := awaitingResponse s;
     manualClose := manualClose s; queue := queue s; sockets := sockets s;
     requestTimers := requestTimers s; reconnectTimers := reconnectTimers s;
     waiters := waiters s; nextId := nextId s; trace := trace s |}.

Definition set_awaitingResponse (v : bool) (s : State) : State :=
  {| url := url s; opts := opts s; ws := ws s; status := status s;
     reconnectAttempt := reconnectAttempt s; connectPromise := connectPromise s;
     heartbeatTimer := heartbeatTimer s; awaitingResponse := v;
     manualClose := manualClose s; queue := queue s; sockets := sockets s;
     requestTimers := requestTimers s; reconnectTimers := reconnectTimers s;
     waiters := waiters s; nextId := nextId s; trace := trace s |}.

Definition set_manualClose (v : bool) (s : State) : State :=
  {| url := url s; opts := opts s; ws := ws s; status := status s;
     reconnectAttempt := reconnectAttempt s; connectPromise := connectPromise s;
     heartbeatTimer := heartbeatTimer s; awaitingResponse := awaitingResponse s;
     manualClose := v; queue := queue s; sockets := sockets s;
     requestTimers := requestTimers s; reconnectTimers := reconnectTimers s;
     waiters := waiters s; nextId := nextId s; trace := trace s |}.

Definition set_queue (v : list QueueItem) (s : State) : State :=
  {| url := url s; opts := opts s; ws := ws s; status := status s;
     reconnectAttempt := reconnectAttempt s; connectPromise := connectPromise s;
     heartbeatTimer := heartbeatTimer s; awaitingResponse := awaitingResponse s;
     manualClose := manualClose s; queue := v; sockets := sockets s;
     requestTimers := requestTimers s; reconnectTimers := reconnectTimers s;
     waiters := waiters s; nextId := nextId s; trace := trace s |}.

Definition set_sockets (v : list Socket) (s : State) : State :=
  {| url := url s; opts := opts s; ws := ws s; status := status s;
     reconnectAttempt := reconnectAttempt s; connectPromise := connectPromise s;
     heartbeatTimer := heartbeatTimer s; awaitingResponse := awaitingResponse s;
     manualClose := manualClose s; queue := queue s; sockets := v;
     requestTimers := requestTimers s; reconnectTimers := reconnectTimers s;
     waiters := waiters s; nextId := nextId s; trace := trace s |}.

Definition set_requestTimers (v : list RequestTimer) (s : State) : State :=
  {| url := url s; opts := opts s; ws := ws s; status := status s;
     reconnectAttempt := reconnectAttempt s; connectPromise := connectPromise s;
     heartbeatTimer := heartbeatTimer s; awaitingResponse := awaitingResponse s;
     manualClose := manualClose s; queue := queue s; sockets := sockets s;
     requestTimers := v; reconnectTimers := reconnectTimers s;
     waiters := waiters s; nextId := nextId s; trace := trace s |}.

Definition set_reconnectTimers (v : nat) (s : State) : State :=
  {| url := url s; opts := opts s; ws := ws s; status := status s;
     reconnectAttempt := reconnectAttempt s; connectPromise := connectPromise s;
     heartbeatTimer := heartbeatTimer s; awaitingResponse := awaitingResponse s;
     manualClose := manualClose s; queue := queue s; sockets := sockets s;
     requestTimers := requestTimers s; reconnectTimers := v;
     waiters := waiters s; nextId := nextId s; trace := trace s |}.

Definition set_waiters (v : list Waiter) (s : State) : State :=
  {| url := url s; opts := opts s; ws := ws s; status := status s;
     reconnectAttempt := reconnectAttempt s; connectPromise := connectPromise s;
     heartbeatTimer := heartbeatTimer s; awaitingResponse := awaitingResponse s;
     manualClose := manualClose s; queue := queue s; sockets := sockets s;
     requestTimers := requestTimers s; reconnectTimers := reconnectTimers s;
     waiters := v; nextId := nextId s; trace := trace s |}.

Definition set_nextId (v : nat) (s : State) : State :=
  {| url := url s; opts := opts s; ws := ws s; status := status s;
     reconnectAttempt := reconnectAttempt s; connectPromise := connectPromise s;
     heartbeatTimer := heartbeatTimer s; awaitingResponse := awaitingResponse s;
     manualClose := manualClose s; queue := queue s; sockets := sockets s;
     requestTimers := requestTimers s; reconnectTimers := reconnectTimers s;
     waiters := waiters s; nextId := v; trace := trace s |}.

(** Append to the record of what was done. *)
Definition does (e : Effect) (s : State) : State :=
  {| url := url s; opts := opts s; ws := ws s; status := status s;
     reconnectAttempt := reconnectAttempt s; connectPromise := connectPromise s;
     heartbeatTimer := heartbeatTimer s; awaitingResponse := awaitingResponse s;
     manualClose := manualClose s; queue := queue s; sockets := sockets s;
     requestTimers := requestTimers s; reconnectTimers := reconnectTimers s;
     waiters := waiters s; nextId := nextId s; trace := trace s ++ [e] |}.

(** ** The methods of the class *)

Definition getStatus (s : State) : ValisClientStatus := status s.

(** [this.eventEmitter.emit(...)] *)
Definition emit (e : Event) (s : State) : State := does (Emit e) s.

(** [this.opts.onLog?.(level, msg, meta)] *)
Definition log (level : LogLevel) (msg : string) (s : State) : State :=
  match onLog (opts s) with
  | Some _ => does (Log level msg) s
  | None => s
  end.

(** [this.ws && this.ws.readyState === WebSocket.OPEN] *)
Definition ws_is_OPEN (s : State) : bool :=
  match ws s with
  | Some w =>
      match sockets s !! w with
      | Some k => is_OPEN (readyState k)
      | None => false
      end
  | None => false
  end.

(** [socket.close(code, reason)] as the host performs it: a socket that is
    connecting or open starts closing, and its close event comes later. *)
Definition closing_of (k : Socket) : Socket :=
  {| sock_url := sock_url k;
     readyState := match readyState k with
                   | CONNECTING | OPEN => CLOSING
                   | r => r
                   end;
     listeners := listeners k;
     connectTimeout := connectTimeout k |}.

Definition socket_close (w : nat) (s : State) : State :=
  set_sockets (alter closing_of w (sockets s)) s.

(** The host refuses a close code other than 1000 and 3000..4999 and a
    reason longer than 123 bytes by throwing. *)
Definition close_accepted (code : option Z) (reason : option string) : bool :=
  match code with
  | None => true
  | Some c => (c =? 1000)%Z || ((3000 <=? c)%Z && (c <=? 4999)%Z)
  end
  && match reason with
     | None => true
     | Some r => (String.length r <=? 123)%nat
     end.

(** [globalThis.clearTimeout(id)] for a request timer. *)
Definition clearTimeout (id : nat) (s : State) : State :=
  set_requestTimers
    (filter (fun t => timer_id t ≠ id) (requestTimers s)) s.

Definition flushQueue (s : State) : State :=
  if negb (ws_is_OPEN s) then s
  else if awaitingResponse s then s
  else match queue s, ws s with
       | front :: _, Some w =>
           does (Send w (rid (completion front)) (payload front))
                (set_awaitingResponse true s)
       | _, _ => s
       end.

Definition stopHeartbeat (s : State) : State :=
  match heartbeatTimer s with
  | Some _ => set_heartbeatTimer None s
  | None => s
  end.

(** [!interval || interval <= 0] *)
Definition heartbeat_off (interval : option Z) : bool :=
  match interval with
  | None => true
  | Some i => (i =? 0)%Z || (i <=? 0)%Z
  end.

(** The body of the interval callback is [heartbeatTick] below. *)
Definition startHeartbeat (s : State) : State :=
  if heartbeat_off (heartbeatIntervalMs (opts s)) then s
  else
    let s := stopHeartbeat s in
    set_heartbeatTimer (Some (nextId s)) (set_nextId (S (nextId s)) s).

(** The [base] of [scheduleReconnect]:
    [Math.min(maxDelay ?? 12_000, (initialDelay ?? 500) * Math.pow(2, attempt))]. *)
Definition base_delay (o : Options) (attempt : nat) : float :=
  Math_min (nullish (reconnectMaxDelayMs o) 12000%float)
           (nullish (reconnectInitialDelayMs o) 500%float * Math_pow2 attempt)%float.

(** The [delay] of [scheduleReconnect], from the attempt counter [attempt]
    and the value [rnd] of [Math.random()]:
    [jitter = base * (jitter ?? 0.2) * Math.random()],
    [delay = Math.floor(base + jitter)]. *)
Definition reconnectDelay (o : Options) (attempt : nat) (rnd : float) : float :=
  let base := base_delay o attempt in
  let jitter :=
    (base * nullish (reconnectJitter o) 0x1.999999999999ap-3 * rnd)%float in
  Math_floor (base + jitter).

Definition scheduleReconnect (rnd : float) (s : State) : State :=
  let s := setStatus reconnecting s in
  let attempt := reconnectAttempt s in
  let s := set_reconnectAttempt (S attempt) s in
  let delay := reconnectDelay (opts s) attempt rnd in
  let s := emit (EvReconnecting (reconnectAttempt s) delay) s in
  set_reconnectTimers (S (reconnectTimers s)) s.

Definition maybeReconnectOnTimeout (s : State) : State :=
  match ws s with
  | Some w =>
      if ws_is_OPEN s && bool_decide (reconnect (opts s) = Some true) then
        socket_close w (log warn "Timeout/heartbeat failure; reconnecting" s)
      else s
  | None => s
  end.

(** What [connect()] hands back to its caller. *)
Inductive Connected : Type :=
  | Throws (e : Error)
  | ReturnsAtOnce
  | ReturnsPromise (p : nat).

Definition connect (s : State) : State * Connected :=
  if negb WebSocket_defined then (s, Throws TransportUnavailable)
  else if ws_is_OPEN s then (s, ReturnsAtOnce)
  else match connectPromise s with
       | Some p => (s, ReturnsPromise p)
       | None =>
           let s := set_manualClose false s in
           let s := setStatus connecting s in
           let w := length (sockets s) in
           let s :=
             set_sockets
               (sockets s ++ [{| sock_url := url s; readyState := CONNECTING;
                                 listeners := true; connectTimeout := true |}])
               s in
           let s := set_ws (Some w) s in
           let s := set_connectPromise (Some w) s in
           (s, ReturnsPromise w)
       end.

Definition disconnect (code : option Z) (reason : option string) (s : State)
  : State :=
  let s := set_manualClose true s in
  let s := setStatus closing s in
  let s := stopHeartbeat s in
  let s := match ws s with
           | Some w => if close_accepted code reason then socket_close w s else s
           | None => s
           end in
  let s := set_ws None s in
  let s := setStatus closed s in
  set_connectPromise None s.

Definition payload_of (c : Command) : string :=
  match c with
  | CmdText text => text
  | CmdObject obj => JSON_stringify obj
  end.

(** The reaction of the heartbeat callback to the outcome of its probe; a
    completion of another caller has no reaction inside the client. *)
Definition heartbeat_settled (hb ok : bool) (s : State) : State :=
  if hb then
    if ok then emit (EvHeartbeat true) s
    else maybeReconnectOnTimeout (emit (EvHeartbeat false) s)
  else s.

(** The executor of the promise built by [sendCommand]: arm the timer,
    push, flush. *)
Definition enqueue (text : string) (hb : bool) (s : State) : State :=
  let id := nextId s in
  let c := {| rid := id; from_heartbeat := hb |} in
  let s := set_nextId (S id) s in
  let s :=
    set_requestTimers
      (requestTimers s
         ++ [{| timer_id := id; timer_payload := text; timer_completion := c |}])
      s in
  let s :=
    set_queue
      (queue s ++ [{| payload := text; completion := c; timeoutId := id |}]) s in
  let s := does (Enqueued id text) s in
  flushQueue s.

(** [sendCommand(command)], called by the user ([hb = false]) or by the
    heartbeat callback. *)
Definition sendCommand (c : Command) (hb : bool) (s : State) : State :=
  if ws_is_OPEN s then enqueue (payload_of c) hb s
  else
    match connect s with
    | (s, Throws e) => heartbeat_settled hb false (does (CommandFailed c e) s)
    | (s, ReturnsAtOnce) => enqueue (payload_of c) hb s
    | (s, ReturnsPromise p) =>
        set_waiters
          (waiters s ++ [{| awaited := p; command := c; for_heartbeat := hb |}])
          s
    end.

Definition getNetwork (s : State) : State := sendCommand (CmdText "network") false s.
Definition getTokens (s : State) : State := sendCommand (CmdText "tokens") false s.

(** The callback of the request timer armed by [sendCommand]. *)
Definition requestTimeout (t : RequestTimer) (s : State) : State :=
  let s :=
    match queue s with
    | front :: rest =>
        if String.eqb (payload front) (timer_payload t)
        then set_awaitingResponse false (set_queue rest s)
        else s
    | [] => s
    end in
  let s :=
    does (Rejected (rid (timer_completion t))
                   (RequestTimedOut (requestTimeoutMs (opts s)))) s in
  let s := maybeReconnectOnTimeout s in
  heartbeat_settled (from_heartbeat (timer_completion t)) false s.

(** The callback of the interval armed by [startHeartbeat]. *)
Definition heartbeatTick (s : State) : State :=
  if awaitingResponse s || negb (bool_decide (queue s = [])) then s
  else sendCommand (CmdText "network") true (does Probe s).

(** ** The listeners installed by [connect()] on socket [w] *)

(** The callers suspended on the promise of socket [w] go on. *)
Definition resume (w : nat) (s : State) : State :=
  let ready := filter (fun x => awaited x = w) (waiters s) in
  let s := set_waiters (filter (fun x => awaited x ≠ w) (waiters s)) s in
  foldl (fun s x => enqueue (payload_of (command x)) (for_heartbeat x) s) s ready.

(** The callers suspended on the promise of socket [w] fail with [e]. *)
Definition abandon (w : nat) (e : Error) (s : State) : State :=
  let failed := filter (fun x => awaited x = w) (waiters s) in
  let s := set_waiters (filter (fun x => awaited x ≠ w) (waiters s)) s in
  foldl (fun s x =>
           heartbeat_settled (for_heartbeat x) false
             (does (CommandFailed (command x) e) s)) s failed.

Definition onOpen (w : nat) (s : State) : State :=
  let s := setStatus open s in
  let s := set_reconnectAttempt 0 s in
  let s := emit EvOpen s in
  let s := log info "WebSocket open" s in
  let s := flushQueue s in
  let s := startHeartbeat s in
  let s := set_connectPromise None s in
  does (ConnectResolved w) s.

(** [JSON.parse] of a string, the string itself when that throws. *)
Definition decode (d : Data) : Data :=
  match d with
  | Text text =>
      match JSON_parse text with
      | Some j => Decoded j
      | None => Text text
      end
  | other => other
  end.

Definition onMessage (d : Data) (s : State) : State :=
  let data := decode d in
  let s := set_awaitingResponse false s in
  match queue s with
  | front :: rest =>
      let s := set_queue rest s in
      let s := clearTimeout (timeoutId front) s in
      let s := does (Resolved (rid (completion front)) data) s in
      let s := flushQueue s in
      heartbeat_settled (from_heartbeat (completion front)) true s
  | [] =>
      let s := emit (EvMessage data) s in
      flushQueue s
  end.

(** [while (this.queue.length) { shift; clearTimeout; reject }] *)
Fixpoint rejectPending (pending : list QueueItem) (s : State) : State :=
  match pending with
  | [] => s
  | it :: rest =>
      let s := set_queue rest s in
      let s := clearTimeout (timeoutId it) s in
      let s := does (Rejected (rid (completion it)) ConnectionClosed) s in
      rejectPending rest s
  end.

(** [cleanup()]: the four listeners leave socket [w]. *)
Definition cleanup (w : nat) (s : State) : State :=
  set_sockets
    (alter (fun k => {| sock_url := sock_url k; readyState := readyState k;
                        listeners := false;
                        connectTimeout := connectTimeout k |}) w (sockets s)) s.

Definition onClose (w : nat) (code : Z) (reason : string) (rnd : float) (s : State)
  : State :=
  let s := setStatus closed s in
  let s := log warn "WebSocket closed" s in
  let s := stopHeartbeat s in
  let s := emit (EvClose code reason) s in
  let pending := queue s in
  let s := rejectPending pending s in
  let s := cleanup w s in
  let s := set_ws None s in
  let s := set_connectPromise None s in
  let s :=
    if negb (manualClose s) && bool_decide (reconnect (opts s) = Some true)
    then scheduleReconnect rnd s
    else s in
  foldl (fun s it => heartbeat_settled (from_heartbeat (completion it)) false s)
        s pending.

(** [err instanceof Error ? err : new Error('WebSocket error')] *)
Definition onError (err : option Error) (s : State) : State :=
  let e := nullish err WebSocketError in
  let s := emit (EvError e) s in
  log error "WebSocket error" s.

(** The callback of the connect-timeout timer of socket [w]. *)
Definition connectTimedOut (w : nat) (s : State) : State :=
  match status s with
  | open => s
  | _ =>
      let s := socket_close w s in
      let s := set_connectPromise None s in
      let s :=
        does (ConnectRejected w (ConnectTimeout (requestTimeoutMs (opts s)))) s in
      abandon w (ConnectTimeout (requestTimeoutMs (opts s))) s
  end.

(** ** The host delivers events *)

Definition set_readyState (r : ReadyState) (w : nat) (s : State) : State :=
  set_sockets
    (alter (fun k => {| sock_url := sock_url k; readyState := r;
                        listeners := listeners k;
                        connectTimeout := connectTimeout k |}) w (sockets s)) s.

(** The one-shot [open] listener: [clearTimeout(connectTimeout)]. *)
Definition disarm (w : nat) (s : State) : State :=
  set_sockets
    (alter (fun k => {| sock_url := sock_url k; readyState := readyState k;
                        listeners := listeners k;
                        connectTimeout := false |}) w (sockets s)) s.

Inductive Input : Type :=
  | CallConnect
  | CallDisconnect (code : option Z) (reason : option string)
  | CallSendCommand (c : Command)
  | SocketOpens (w : nat)
  | SocketMessage (w : nat) (d : Data)
  | SocketCloses (w : nat) (code : Z) (reason : string) (rnd : float)
  | SocketError (w : nat) (err : option Error)
  | RequestTimerFires (id : nat)
  | ConnectTimerFires (w : nat)
  | HeartbeatTimerFires
  | ReconnectTimerFires.

(** One event.  An event the host cannot deliver in the state at hand (a
    socket that does not exist or has lost its listeners, a timer that is
    not armed) leaves the state as it is.  The request timers all carry the
    delay [requestTimeoutMs], so they expire in the order they were armed:
    [RequestTimerFires] is delivered for the oldest armed one only. *)
Definition step (s : State) (i : Input) : State :=
  match i with
  | CallConnect => fst (connect s)
  | CallDisconnect code reason => disconnect code reason s
  | CallSendCommand c => sendCommand c false s
  | SocketOpens w =>
      match sockets s !! w with
      | Some k =>
          match readyState k, listeners k with
          | CONNECTING, true =>
              resume w (disarm w (onOpen w (set_readyState OPEN w s)))
          | _, _ => s
          end
      | None => s
      end
  | SocketMessage w d =>
      match sockets s !! w with
      | Some k =>
          match readyState k, listeners k with
          | OPEN, true | CLOSING, true => onMessage d s
          | _, _ => s
          end
      | None => s
      end
  | SocketCloses w code reason rnd =>
      match sockets s !! w with
      | Some k =>
          if negb (is_CLOSED (readyState k)) && listeners k
          then onClose w code reason rnd (set_readyState CLOSED w s)
          else s
      | None => s
      end
  | SocketError w err =>
      match sockets s !! w with
      | Some k => if listeners k then onError err s else s
      | None => s
      end
  | RequestTimerFires id =>
      match requestTimers s with
      | t :: rest =>
          if (timer_id t =? id)%nat
          then requestTimeout t (set_requestTimers rest s)
          else s
      | [] => s
      end
  | ConnectTimerFires w =>
      match sockets s !! w with
      | Some k =>
          if connectTimeout k then connectTimedOut w (disarm w s) else s
      | None => s
      end
  | HeartbeatTimerFires =>
      match heartbeatTimer s with
      | Some _ => heartbeatTick s
      | None => s
      end
  | ReconnectTimerFires =>
      match reconnectTimers s with
      | S n => fst (connect (set_reconnectTimers n s))
      | O => s
      end
  end.

Definition run (s : State) (inputs : list Input) : State := foldl step s inputs.

(** ** Reading the trace *)

(** The part of the trace that concerns the request queue. *)
Definition about_requests (e : Effect) : bool :=
  match e with
  | Enqueued _ _ | Send _ _ _ | Resolved _ _ | Rejected _ _ => true
  | _ => false
  end.

Definition ledger (tr : list Effect) : list Effect :=
  filter (fun e => about_requests e) tr.

(** The requests pushed on the queue, oldest first. *)
Definition enqueued (tr : list Effect) : list (nat * string) :=
  omap (fun e => match e with
                 | Enqueued who text => Some (who, text)
                 | _ => None
                 end) tr.

(** The requests written to a socket, in the order of the writes. *)
Definition written (tr : list Effect) : list (nat * string) :=
  omap (fun e => match e with
                 | Send _ who text => Some (who, text)
                 | _ => None
                 end) tr.

(** The completions fired, in the order they fired. *)
Definition settles (e : Effect) : option nat :=
  match e with
  | Resolved who _ | Rejected who _ => Some who
  | _ => None
  end.

Definition settled (tr : list Effect) : list nat := omap settles tr.

(** The completions that failed, with the error. *)
Definition failures (tr : list Effect) : list (nat * Error) :=
  omap (fun e => match e with
                 | Rejected who err => Some (who, err)
                 | _ => None
                 end) tr.

(** The probes issued by the heartbeat callback. *)
Definition is_Probe (e : Effect) : bool :=
  match e with Probe => true | _ => false end.

Definition probes (tr : list Effect) : list Effect :=
  filter (fun e => is_Probe e) tr.

(** The reconnects scheduled since the last open. *)
Definition count_attempt (n : nat) (e : Effect) : nat :=
  match e with
  | Emit EvOpen => 0
  | Emit (EvReconnecting _ _) => S n
  | _ => n
  end.

Definition attempts (tr : list Effect) : nat := foldl count_attempt 0 tr.

(** The [reconnecting] events, in order: the attempt and the delay each
    one reports. *)
Definition reconnectings (tr : list Effect) : list (nat * float) :=
  omap (fun e => match e with
                 | Emit (EvReconnecting attempt delayMs) => Some (attempt, delayMs)
                 | _ => None
                 end) tr.

Definition is_reconnecting (e : Effect) : bool :=
  match e with Emit (EvReconnecting _ _) => true | _ => false end.

(** The identity of a queued request, and the timer armed with it. *)
Definition key (it : QueueItem) : nat * string :=
  (rid (completion it), payload it).

Definition timer_of (it : QueueItem) : RequestTimer :=
  {| timer_id := timeoutId it;
     timer_payload := payload it;
     timer_completion := completion it |}.

(** A queued request is in flight when its payload has been written. *)
Definition in_flight (s : State) (it : QueueItem) : Prop :=
  key it ∈ written (trace s).

(** ** The vocabulary of the properties *)

#[global] Instance in_flight_dec (s : State) (it : QueueItem) : Decision (in_flight s it).
Proof. unfold in_flight. apply _. Defined.

(** [still s s']: from [s] to [s'] nothing happened to the queue, to the
    in-flight flag, to the request timers or to the requests' part of the
    trace. *)
Record still (s s' : State) : Prop := {
  still_queue : queue s' = queue s;
  still_flag : awaitingResponse s' = awaitingResponse s;
  still_timers : requestTimers s' = requestTimers s;
  still_next : nextId s <= nextId s';
  still_ledger : ledger (trace s') = ledger (trace s)
}.

(** The effects that move the count of [attempts]. *)
Definition is_count (e : Effect) : bool :=
  match e with
  | Emit EvOpen | Emit (EvReconnecting _ _) => true
  | _ => false
  end.

(** The attempt counter is the number of reconnects scheduled since the
    last open. *)
Definition Counted (s : State) : Prop :=
  reconnectAttempt s = attempts (trace s).

(** [mild s s']: the options are those of [s], the attempt counter still
    agrees with the trace, a heartbeat that is switched off has not been
    started, and no probe was issued. *)
Record mild (s s' : State) : Prop := {
  mild_opts : opts s' = opts s;
  mild_counted : Counted s -> Counted s';
  mild_heartbeat :
    heartbeat_off (heartbeatIntervalMs (opts s)) = true ->
    heartbeatTimer s = None -> heartbeatTimer s' = None;
  mild_probes : probes (trace s') = probes (trace s);
  mild_trace : trace s `prefix_of` trace s'
}.

(** The writes follow the departures from the queue: either every written
    request has left the queue, or the last write is the head of the queue,
    the flag is up, and the writes before it have left. *)
Definition in_order (gone : list (nat * string)) (q : list QueueItem)
    (flag : bool) (wr : list (nat * string)) : Prop :=
  wr `sublist_of` gone \/
  exists front rest before,
    q = front :: rest /\ flag = true /\
    wr = before ++ [key front] /\ before `sublist_of` gone.

Record Serial_with (gone : list (nat * string)) (s : State) : Prop := {
  (* the queue holds, in order, the requests enqueued and not yet settled *)
  serial_fifo : enqueued (trace s) = gone ++ map key (queue s);
  serial_gone : gone.*1 = settled (trace s);
  serial_wire : in_order gone (queue s) (awaitingResponse s) (written (trace s));
  (* the armed request timers are those of the queued requests *)
  serial_timers : requestTimers s = map timer_of (queue s);
  serial_ids : Forall (fun it => timeoutId it = rid (completion it)) (queue s);
  serial_fresh : Forall (fun x => x.1 < nextId s) (enqueued (trace s));
  serial_nodup : NoDup (enqueued (trace s)).*1
}.

Definition Serial (s : State) : Prop := exists gone, Serial_with gone s.

(** The heartbeat is configured off, no interval is armed and no probe was
    issued. *)
Definition HeartbeatOff (s : State) : Prop :=
  heartbeat_off (heartbeatIntervalMs (opts s)) = true /\
  heartbeatTimer s = None /\
  probes (trace s) = [].

(** Traffic on an open connection: the user issues a command, or the
    server answers on socket [w]. *)
Inductive Traffic : Type :=
  | Issue (c : Command)
  | Answer (d : Data).

Definition traffic_input (w : nat) (t : Traffic) : Input :=
  match t with
  | Issue c => CallSendCommand c
  | Answer d => SocketMessage w d
  end.

(** The payloads of the commands issued, in the order of the calls. *)
Definition issued (traffic : list Traffic) : list string :=
  omap (fun t => match t with
                 | Issue c => Some (payload_of c)
                 | Answer _ => None
                 end) traffic.

(** The number of commands waiting for their answer after some traffic,
    when [n] were waiting before: an answer that finds none waiting is
    unsolicited. *)
Definition serve (n : nat) (t : Traffic) : nat :=
  match t with
  | Issue _ => S n
  | Answer _ => pred n
  end.

Definition backlog (traffic : list Traffic) : nat := foldl serve 0 traffic.

(** [Flow s0 w done s]: since [s0] the client has been serving traffic on
    the open socket [w]; the requests [done] were enqueued, written and
    settled, in that order, and those in the queue were enqueued after
    them, the head alone being written. *)
Record Flow (s0 : State) (w : nat) (done : list (nat * string)) (s : State)
  : Prop := {
  flow_ws : ws s = Some w;
  flow_socket :
    exists k, sockets s !! w = Some k /\ readyState k = OPEN /\ listeners k = true;
  flow_flag : awaitingResponse s = negb (bool_decide (queue s = []));
  flow_users : Forall (fun it => from_heartbeat (completion it) = false) (queue s);
  flow_enqueued :
    enqueued (trace s) = enqueued (trace s0) ++ done ++ map key (queue s);
  flow_written :
    written (trace s) = written (trace s0) ++ done ++ map key (take 1 (queue s));
  flow_settled : settled (trace s) = settled (trace s0) ++ done.*1
}.

(** Socket [w] has the listeners of the client and has not delivered its
    close event: the host can deliver one. *)
Definition hears_close (w : nat) (s : State) : bool :=
  match sockets s !! w with
  | Some k => negb (is_CLOSED (readyState k)) && listeners k
  | None => false
  end.

(** [hushed s s']: from [s] to [s'] no [reconnecting] event was emitted. *)
Definition hushed (s s' : State) : Prop :=
  reconnectings (trace s') = reconnectings (trace s).

(** [steady s s']: from [s] to [s'] only the queue side moved: the status,
    the socket reference, the sockets, the pending connect, the suspended
    callers, the reconnect state and the heartbeat timer are those of [s]. *)
Record steady (s s' : State) : Prop := {
  steady_status : status s' = status s;
  steady_ws : ws s' = ws s;
  steady_sockets : sockets s' = sockets s;
  steady_connectPromise : connectPromise s' = connectPromise s;
  steady_manualClose : manualClose s' = manualClose s;
  steady_attempt : reconnectAttempt s' = reconnectAttempt s;
  steady_reconnectTimers : reconnectTimers s' = reconnectTimers s;
  steady_heartbeatTimer : heartbeatTimer s' = heartbeatTimer s;
  steady_waiters : waiters s' = waiters s;
  steady_opts : opts s' = opts s
}.

(** ** Facts about the trace readers *)

Lemma ledger_snoc (tr : list Effect) (e : Effect) :
  ledger (tr ++ [e]) = ledger tr ++ (if about_requests e then [e] else []).
Proof.
  unfold ledger. rewrite filter_app. f_equal.
  destruct e; reflexivity.
Qed.

Lemma probes_snoc (tr : list Effect) (e : Effect) :
  probes (tr ++ [e]) = probes tr ++ (if is_Probe e then [e] else []).
Proof.
  unfold probes. rewrite filter_app. f_equal.
  destruct e; reflexivity.
Qed.

Lemma attempts_snoc (tr : list Effect) (e : Effect) :
  attempts (tr ++ [e]) = count_attempt (attempts tr) e.
Proof. unfold attempts. now rewrite foldl_app. Qed.

Lemma enqueued_ledger (tr : list Effect) : enqueued (ledger tr) = enqueued tr.
Proof.
  induction tr as [|e tr IH]; [reflexivity|].
  unfold ledger in *. rewrite filter_cons.
  destruct e; simpl; rewrite ?IH; reflexivity.
Qed.

Lemma written_ledger (tr : list Effect) : written (ledger tr) = written tr.
Proof.
  induction tr as [|e tr IH]; [reflexivity|].
  unfold ledger in *. rewrite filter_cons.
  destruct e; simpl; rewrite ?IH; reflexivity.
Qed.

Lemma settled_ledger (tr : list Effect) : settled (ledger tr) = settled tr.
Proof.
  induction tr as [|e tr IH]; [reflexivity|].
  unfold ledger in *. rewrite filter_cons.
  destruct e; simpl; rewrite ?IH; reflexivity.
Qed.

Lemma failures_ledger (tr : list Effect) : failures (ledger tr) = failures tr.
Proof.
  induction tr as [|e tr IH]; [reflexivity|].
  unfold ledger in *. rewrite filter_cons.
  destruct e; simpl; rewrite ?IH; reflexivity.
Qed.

(** ** Steps that leave the request queue alone *)

Lemma still_refl (s : State) : still s s.
Proof. constructor; auto. Qed.

Lemma still_trans (s1 s2 s3 : State) : still s1 s2 -> still s2 s3 -> still s1 s3.
Proof.
  intros [] []. constructor; try congruence. lia.
Qed.

Ltac still_tac :=
  intros;
  match goal with H : still _ _ |- _ => destruct H end;
  repeat case_match;
  constructor; simpl; rewrite ?ledger_snoc; simpl; rewrite ?app_nil_r;
  try congruence; try lia.

Lemma still_does (e : Effect) (s0 s : State) :
  about_requests e = false -> still s0 s -> still s0 (does e s).
Proof. intros He. still_tac. rewrite He, app_nil_r. congruence. Qed.

Lemma still_emit (e : Event) (s0 s : State) : still s0 s -> still s0 (emit e s).
Proof. unfold emit. still_tac. Qed.

Lemma still_log lv msg (s0 s : State) : still s0 s -> still s0 (log lv msg s).
Proof. unfold log. still_tac. Qed.

Lemma still_setStatus v (s0 s : State) : still s0 s -> still s0 (setStatus v s).
Proof. still_tac. Qed.

Lemma still_set_ws v (s0 s : State) : still s0 s -> still s0 (set_ws v s).
Proof. still_tac. Qed.

Lemma still_set_reconnectAttempt v (s0 s : State) :
  still s0 s -> still s0 (set_reconnectAttempt v s).
Proof. still_tac. Qed.

Lemma still_set_connectPromise v (s0 s : State) :
  still s0 s -> still s0 (set_connectPromise v s).
Proof. still_tac. Qed.

Lemma still_set_heartbeatTimer v (s0 s : State) :
  still s0 s -> still s0 (set_heartbeatTimer v s).
Proof. still_tac. Qed.

Lemma still_set_manualClose v (s0 s : State) :
  still s0 s -> still s0 (set_manualClose v s).
Proof. still_tac. Qed.

Lemma still_set_sockets v (s0 s : State) : still s0 s -> still s0 (set_sockets v s).
Proof. still_tac. Qed.

Lemma still_set_reconnectTimers v (s0 s : State) :
  still s0 s -> still s0 (set_reconnectTimers v s).
Proof. still_tac. Qed.

Lemma still_set_waiters v (s0 s : State) : still s0 s -> still s0 (set_waiters v s).
Proof. still_tac. Qed.

Lemma still_set_nextId (s0 s : State) :
  still s0 s -> still s0 (set_nextId (S (nextId s)) s).
Proof. still_tac. Qed.

Create HintDb still discriminated.
#[local] Hint Resolve still_refl still_does still_emit still_log still_setStatus
  still_set_ws still_set_reconnectAttempt still_set_connectPromise
  still_set_heartbeatTimer still_set_manualClose still_set_sockets
  still_set_reconnectTimers still_set_waiters still_set_nextId : still.

Ltac still_by_parts :=
  intros; repeat case_match; simpl; auto 20 with still.

Lemma still_socket_close w (s0 s : State) : still s0 s -> still s0 (socket_close w s).
Proof. unfold socket_close. still_by_parts. Qed.

Lemma still_cleanup w (s0 s : State) : still s0 s -> still s0 (cleanup w s).
Proof. unfold cleanup. still_by_parts. Qed.

Lemma still_disarm w (s0 s : State) : still s0 s -> still s0 (disarm w s).
Proof. unfold disarm. still_by_parts. Qed.

Lemma still_set_readyState r w (s0 s : State) :
  still s0 s -> still s0 (set_readyState r w s).
Proof. unfold set_readyState. still_by_parts. Qed.

Lemma still_stopHeartbeat (s0 s : State) : still s0 s -> still s0 (stopHeartbeat s).
Proof. unfold stopHeartbeat. still_by_parts. Qed.

#[local] Hint Resolve still_socket_close still_cleanup still_disarm
  still_set_readyState still_stopHeartbeat : still.

Lemma still_startHeartbeat (s0 s : State) : still s0 s -> still s0 (startHeartbeat s).
Proof.
  unfold startHeartbeat. intros. case_match; [assumption|].
  apply still_set_heartbeatTimer.
  apply (still_set_nextId s0 (stopHeartbeat s)). auto with still.
Qed.

Lemma still_scheduleReconnect rnd (s0 s : State) :
  still s0 s -> still s0 (scheduleReconnect rnd s).
Proof. unfold scheduleReconnect. still_by_parts. Qed.

Lemma still_maybeReconnectOnTimeout (s0 s : State) :
  still s0 s -> still s0 (maybeReconnectOnTimeout s).
Proof. unfold maybeReconnectOnTimeout. still_by_parts. Qed.

#[local] Hint Resolve still_startHeartbeat still_scheduleReconnect
  still_maybeReconnectOnTimeout : still.

Lemma still_connect (s0 s : State) : still s0 s -> still s0 (connect s).1.
Proof. unfold connect. still_by_parts. Qed.

Lemma still_disconnect code reason (s0 s : State) :
  still s0 s -> still s0 (disconnect code reason s).
Proof. unfold disconnect. still_by_parts. Qed.

Lemma still_heartbeat_settled hb ok (s0 s : State) :
  still s0 s -> still s0 (heartbeat_settled hb ok s).
Proof. unfold heartbeat_settled. still_by_parts. Qed.

Lemma still_onError err (s0 s : State) : still s0 s -> still s0 (onError err s).
Proof. unfold onError. still_by_parts. Qed.

#[local] Hint Resolve still_connect still_disconnect still_heartbeat_settled
  still_onError : still.

Lemma still_abandon w e (s0 s : State) : still s0 s -> still s0 (abandon w e s).
Proof.
  unfold abandon. intros H.
  generalize (filter (fun x => awaited x = w) (waiters s)).
  assert (H' : still s0 (set_waiters (filter (fun x => awaited x ≠ w) (waiters s)) s))
    by auto with still.
  revert H'. generalize (set_waiters (filter (fun x => awaited x ≠ w) (waiters s)) s).
  intros s1 H1 l. revert s1 H1.
  induction l as [|x l IH]; intros s1 H1; simpl; [assumption|].
  apply IH. auto with still.
Qed.

Lemma still_connectTimedOut w (s0 s : State) :
  still s0 s -> still s0 (connectTimedOut w s).
Proof.
  unfold connectTimedOut. intros. case_match; auto;
    apply still_abandon; auto 10 with still.
Qed.

Lemma still_settle_all (l : list QueueItem) (s0 s : State) :
  still s0 s ->
  still s0 (foldl (fun s it =>
                     heartbeat_settled (from_heartbeat (completion it)) false s)
                  s l).
Proof.
  revert s. induction l as [|x l IH]; intros s H; simpl; [assumption|].
  apply IH. auto with still.
Qed.

#[local] Hint Resolve still_abandon still_connectTimedOut still_settle_all : still.

(** ** The attempt counter and the heartbeat timer *)

Lemma Counted_does (e : Effect) (s : State) :
  is_count e = false -> Counted s -> Counted (does e s).
Proof.
  unfold Counted. intros He Hn. simpl.
  rewrite attempts_snoc, Hn.
  destruct e as [[]| | | | | | | | |]; try reflexivity; discriminate.
Qed.

Lemma mild_refl (s : State) : mild s s.
Proof. constructor; auto. Qed.

Lemma mild_trans (s1 s2 s3 : State) : mild s1 s2 -> mild s2 s3 -> mild s1 s3.
Proof.
  intros [Ho1 Hc1 Hh1 Hp1 Ht1] [Ho2 Hc2 Hh2 Hp2 Ht2].
  constructor; try congruence.
  - auto.
  - intros. apply Hh2; [congruence|auto].
  - now transitivity (trace s2).
Qed.

Ltac mild_tac :=
  intros;
  match goal with H : mild _ _ |- _ => destruct H as [Ho Hc Hh Hp Ht] end;
  constructor; simpl; auto using prefix_app_r.

Lemma mild_does (e : Effect) (s0 s : State) :
  is_count e = false -> is_Probe e = false -> mild s0 s -> mild s0 (does e s).
Proof.
  intros He Hp'. mild_tac.
  - intros. now apply Counted_does, Hc.
  - rewrite probes_snoc, Hp', app_nil_r. assumption.
Qed.

Lemma mild_setStatus v (s0 s : State) : mild s0 s -> mild s0 (setStatus v s).
Proof. mild_tac. Qed.

Lemma mild_set_ws v (s0 s : State) : mild s0 s -> mild s0 (set_ws v s).
Proof. mild_tac. Qed.

Lemma mild_set_connectPromise v (s0 s : State) :
  mild s0 s -> mild s0 (set_connectPromise v s).
Proof. mild_tac. Qed.

Lemma mild_set_manualClose v (s0 s : State) :
  mild s0 s -> mild s0 (set_manualClose v s).
Proof. mild_tac. Qed.

Lemma mild_set_sockets v (s0 s : State) : mild s0 s -> mild s0 (set_sockets v s).
Proof. mild_tac. Qed.

Lemma mild_set_reconnectTimers v (s0 s : State) :
  mild s0 s -> mild s0 (set_reconnectTimers v s).
Proof. mild_tac. Qed.

Lemma mild_set_waiters v (s0 s : State) : mild s0 s -> mild s0 (set_waiters v s).
Proof. mild_tac. Qed.

Lemma mild_set_nextId v (s0 s : State) : mild s0 s -> mild s0 (set_nextId v s).
Proof. mild_tac. Qed.

Lemma mild_set_queue v (s0 s : State) : mild s0 s -> mild s0 (set_queue v s).
Proof. mild_tac. Qed.

Lemma mild_set_awaitingResponse v (s0 s : State) :
  mild s0 s -> mild s0 (set_awaitingResponse v s).
Proof. mild_tac. Qed.

Lemma mild_set_requestTimers v (s0 s : State) :
  mild s0 s -> mild s0 (set_requestTimers v s).
Proof. mild_tac. Qed.

Lemma mild_stopHeartbeat (s0 s : State) : mild s0 s -> mild s0 (stopHeartbeat s).
Proof. unfold stopHeartbeat. intros. case_match; [|assumption]. mild_tac. Qed.

Lemma mild_startHeartbeat (s0 s : State) : mild s0 s -> mild s0 (startHeartbeat s).
Proof.
  unfold startHeartbeat. intros. case_match eqn:Hoff; [assumption|].
  destruct H as [Ho Hc Hh Hp Ht].
  constructor; simpl.
  - unfold stopHeartbeat. now case_match.
  - intros Hs. specialize (Hc Hs). unfold stopHeartbeat. now case_match.
  - intros Hoff'. rewrite Ho, Hoff' in Hoff. discriminate.
  - unfold stopHeartbeat. now case_match.
  - unfold stopHeartbeat. now case_match.
Qed.

Lemma mild_onOpen_count (s0 s : State) :
  mild s0 s ->
  mild s0 (emit EvOpen (set_reconnectAttempt 0 s)).
Proof.
  mild_tac.
  - intros Hs. specialize (Hc Hs). unfold Counted in *. simpl.
    now rewrite attempts_snoc.
  - now rewrite probes_snoc, app_nil_r.
Qed.

Lemma mild_scheduleReconnect rnd (s0 s : State) :
  mild s0 s -> mild s0 (scheduleReconnect rnd s).
Proof.
  unfold scheduleReconnect. mild_tac.
  - intros Hs. specialize (Hc Hs). unfold Counted in *. simpl.
    rewrite attempts_snoc. simpl. now rewrite Hc.
  - now rewrite probes_snoc, app_nil_r.
Qed.

Create HintDb mild discriminated.
#[local] Hint Resolve mild_refl mild_does mild_setStatus mild_set_ws
  mild_set_connectPromise mild_set_manualClose mild_set_sockets
  mild_set_reconnectTimers mild_set_waiters mild_set_nextId mild_set_queue
  mild_set_awaitingResponse mild_set_requestTimers mild_stopHeartbeat
  mild_startHeartbeat mild_onOpen_count mild_scheduleReconnect : mild.

Ltac mild_by_parts :=
  intros; repeat case_match; simpl; auto 20 with mild.

Lemma mild_emit (e : Event) (s0 s : State) :
  is_count (Emit e) = false -> mild s0 s -> mild s0 (emit e s).
Proof. unfold emit. auto with mild. Qed.

Lemma mild_log lv msg (s0 s : State) : mild s0 s -> mild s0 (log lv msg s).
Proof. unfold log. mild_by_parts. Qed.

Lemma mild_socket_close w (s0 s : State) : mild s0 s -> mild s0 (socket_close w s).
Proof. unfold socket_close. mild_by_parts. Qed.

Lemma mild_cleanup w (s0 s : State) : mild s0 s -> mild s0 (cleanup w s).
Proof. unfold cleanup. mild_by_parts. Qed.

Lemma mild_disarm w (s0 s : State) : mild s0 s -> mild s0 (disarm w s).
Proof. unfold disarm. mild_by_parts. Qed.

Lemma mild_set_readyState r w (s0 s : State) :
  mild s0 s -> mild s0 (set_readyState r w s).
Proof. unfold set_readyState. mild_by_parts. Qed.

Lemma mild_clearTimeout id (s0 s : State) : mild s0 s -> mild s0 (clearTimeout id s).
Proof. unfold clearTimeout. mild_by_parts. Qed.

#[local] Hint Resolve mild_emit mild_log mild_socket_close mild_cleanup mild_disarm
  mild_set_readyState mild_clearTimeout : mild.

Lemma mild_flushQueue (s0 s : State) : mild s0 s -> mild s0 (flushQueue s).
Proof. unfold flushQueue. mild_by_parts. Qed.

Lemma mild_maybeReconnectOnTimeout (s0 s : State) :
  mild s0 s -> mild s0 (maybeReconnectOnTimeout s).
Proof. unfold maybeReconnectOnTimeout. mild_by_parts. Qed.

#[local] Hint Resolve mild_flushQueue mild_maybeReconnectOnTimeout : mild.

Lemma mild_connect (s0 s : State) : mild s0 s -> mild s0 (connect s).1.
Proof. unfold connect. mild_by_parts. Qed.

Lemma mild_disconnect code reason (s0 s : State) :
  mild s0 s -> mild s0 (disconnect code reason s).
Proof. unfold disconnect. mild_by_parts. Qed.

Lemma mild_heartbeat_settled hb ok (s0 s : State) :
  mild s0 s -> mild s0 (heartbeat_settled hb ok s).
Proof. unfold heartbeat_settled. mild_by_parts. Qed.

Lemma mild_enqueue text hb (s0 s : State) : mild s0 s -> mild s0 (enqueue text hb s).
Proof. unfold enqueue. mild_by_parts. Qed.

Lemma mild_onError err (s0 s : State) : mild s0 s -> mild s0 (onError err s).
Proof. unfold onError. mild_by_parts. Qed.

#[local] Hint Resolve mild_connect mild_disconnect mild_heartbeat_settled
  mild_enqueue mild_onError : mild.

Lemma mild_sendCommand c hb (s0 s : State) :
  mild s0 s -> mild s0 (sendCommand c hb s).
Proof.
  unfold sendCommand. intros H. case_match; [auto with mild|].
  pose proof (mild_connect s0 s H) as Hc.
  destruct (connect s) as [s1 [e| |p]]; simpl in Hc; auto 10 with mild.
Qed.

Lemma mild_requestTimeout t (s0 s : State) :
  mild s0 s -> mild s0 (requestTimeout t s).
Proof. unfold requestTimeout. mild_by_parts. Qed.

Lemma mild_resume w (s0 s : State) : mild s0 s -> mild s0 (resume w s).
Proof.
  unfold resume. intros H.
  generalize (filter (fun x => awaited x = w) (waiters s)).
  assert (H' : mild s0 (set_waiters (filter (fun x => awaited x ≠ w) (waiters s)) s))
    by auto with mild.
  revert H'. generalize (set_waiters (filter (fun x => awaited x ≠ w) (waiters s)) s).
  intros s1 H1 l. revert s1 H1.
  induction l as [|x l IH]; intros s1 H1; simpl; [assumption|].
  apply IH. auto with mild.
Qed.

Lemma mild_abandon w e (s0 s : State) : mild s0 s -> mild s0 (abandon w e s).
Proof.
  unfold abandon. intros H.
  generalize (filter (fun x => awaited x = w) (waiters s)).
  assert (H' : mild s0 (set_waiters (filter (fun x => awaited x ≠ w) (waiters s)) s))
    by auto with mild.
  revert H'. generalize (set_waiters (filter (fun x => awaited x ≠ w) (waiters s)) s).
  intros s1 H1 l. revert s1 H1.
  induction l as [|x l IH]; intros s1 H1; simpl; [assumption|].
  apply IH. auto 10 with mild.
Qed.

Lemma mild_onOpen w (s0 s : State) : mild s0 s -> mild s0 (onOpen w s).
Proof.
  unfold onOpen. intros H.
  apply mild_does; try reflexivity.
  apply mild_set_connectPromise, mild_startHeartbeat, mild_flushQueue, mild_log.
  apply (mild_onOpen_count s0 (setStatus open s)). auto with mild.
Qed.

Lemma mild_onMessage d (s0 s : State) : mild s0 s -> mild s0 (onMessage d s).
Proof. unfold onMessage. mild_by_parts. Qed.

Lemma mild_rejectPending (l : list QueueItem) (s0 s : State) :
  mild s0 s -> mild s0 (rejectPending l s).
Proof.
  revert s. induction l as [|x l IH]; intros s H; simpl; [assumption|].
  apply IH. auto 10 with mild.
Qed.

Lemma mild_settle_all (l : list QueueItem) (s0 s : State) :
  mild s0 s ->
  mild s0 (foldl (fun s it =>
                    heartbeat_settled (from_heartbeat (completion it)) false s)
                 s l).
Proof.
  revert s. induction l as [|x l IH]; intros s H; simpl; [assumption|].
  apply IH. auto with mild.
Qed.

#[local] Hint Resolve mild_sendCommand mild_requestTimeout mild_resume mild_abandon
  mild_onOpen mild_onMessage mild_rejectPending mild_settle_all : mild.

Lemma mild_onClose w code reason rnd (s0 s : State) :
  mild s0 s -> mild s0 (onClose w code reason rnd s).
Proof.
  unfold onClose. intros H. apply mild_settle_all.
  case_match; auto 20 with mild.
Qed.

Lemma mild_connectTimedOut w (s0 s : State) :
  mild s0 s -> mild s0 (connectTimedOut w s).
Proof. unfold connectTimedOut. intros. case_match; auto 10 with mild. Qed.

#[local] Hint Resolve mild_onClose mild_connectTimedOut : mild.

(** Every input but the expiry of the heartbeat interval is mild. *)
Lemma mild_step (s : State) (i : Input) :
  i <> HeartbeatTimerFires -> mild s (step s i).
Proof.
  intros Hi. destruct i; simpl; try congruence;
    repeat case_match; auto 10 with mild.
Qed.

(** ** Steps that leave the connection alone *)

Lemma steady_refl (s : State) : steady s s.
Proof. constructor; reflexivity. Qed.

Ltac steady_tac :=
  intros;
  match goal with H : steady _ _ |- _ => destruct H end;
  repeat case_match;
  constructor; simpl; try congruence.

Lemma steady_does (e : Effect) (s0 s : State) : steady s0 s -> steady s0 (does e s).
Proof. steady_tac. Qed.

Lemma steady_set_queue v (s0 s : State) : steady s0 s -> steady s0 (set_queue v s).
Proof. steady_tac. Qed.

Lemma steady_set_awaitingResponse v (s0 s : State) :
  steady s0 s -> steady s0 (set_awaitingResponse v s).
Proof. steady_tac. Qed.

Lemma steady_set_requestTimers v (s0 s : State) :
  steady s0 s -> steady s0 (set_requestTimers v s).
Proof. steady_tac. Qed.

Lemma steady_set_nextId v (s0 s : State) : steady s0 s -> steady s0 (set_nextId v s).
Proof. steady_tac. Qed.

Create HintDb steady discriminated.
#[local] Hint Resolve steady_refl steady_does steady_set_queue
  steady_set_awaitingResponse steady_set_requestTimers steady_set_nextId : steady.

Ltac steady_by_parts :=
  intros; repeat case_match; simpl; auto 20 with steady.

Lemma steady_emit (e : Event) (s0 s : State) : steady s0 s -> steady s0 (emit e s).
Proof. unfold emit. steady_by_parts. Qed.

Lemma steady_log lv msg (s0 s : State) : steady s0 s -> steady s0 (log lv msg s).
Proof. unfold log. steady_by_parts. Qed.

Lemma steady_clearTimeout id (s0 s : State) :
  steady s0 s -> steady s0 (clearTimeout id s).
Proof. unfold clearTimeout. steady_by_parts. Qed.

Lemma steady_flushQueue (s0 s : State) : steady s0 s -> steady s0 (flushQueue s).
Proof. unfold flushQueue. steady_by_parts. Qed.

#[local] Hint Resolve steady_emit steady_log steady_clearTimeout
  steady_flushQueue : steady.

Lemma steady_enqueue text hb (s0 s : State) :
  steady s0 s -> steady s0 (enqueue text hb s).
Proof. unfold enqueue. steady_by_parts. Qed.

Lemma steady_rejectPending (l : list QueueItem) (s0 s : State) :
  steady s0 s -> steady s0 (rejectPending l s).
Proof.
  revert s. induction l as [|x l IH]; intros s H; simpl; [assumption|].
  apply IH. auto 10 with steady.
Qed.

#[local] Hint Resolve steady_enqueue steady_rejectPending : steady.

(** With no socket in [this.ws] the reaction to a failed probe is the
    heartbeat event alone. *)
Lemma steady_heartbeat_settled hb ok (s0 s : State) :
  ok = true \/ ws s = None ->
  steady s0 s -> steady s0 (heartbeat_settled hb ok s).
Proof.
  intros Hok H. unfold heartbeat_settled, maybeReconnectOnTimeout.
  destruct hb; [|assumption]. destruct ok; [auto with steady|].
  destruct Hok as [?|Hws]; [discriminate|].
  simpl. rewrite Hws. auto with steady.
Qed.

Lemma steady_settle_all (l : list QueueItem) (s0 s : State) :
  ws s = None -> steady s0 s ->
  steady s0 (foldl (fun s it =>
                      heartbeat_settled (from_heartbeat (completion it)) false s)
                   s l).
Proof.
  revert s. induction l as [|x l IH]; intros s Hws H; simpl; [assumption|].
  assert (Hst : steady s (heartbeat_settled (from_heartbeat (completion x)) false s))
    by (apply steady_heartbeat_settled; auto using steady_refl).
  apply IH.
  - now rewrite (steady_ws _ _ Hst).
  - apply steady_heartbeat_settled; auto.
Qed.

(** The callers resumed at an open enter the queue; nothing else moves
    but the list of suspended callers. *)
Lemma resume_spec (w : nat) (s : State) :
  let s' := resume w s in
  status s' = status s /\ ws s' = ws s /\ sockets s' = sockets s /\
  connectPromise s' = connectPromise s /\ manualClose s' = manualClose s /\
  reconnectAttempt s' = reconnectAttempt s /\
  reconnectTimers s' = reconnectTimers s /\
  heartbeatTimer s' = heartbeatTimer s /\
  waiters s' = filter (fun x => awaited x ≠ w) (waiters s).
Proof.
  unfold resume.
  set (s1 := set_waiters (filter (fun x => awaited x ≠ w) (waiters s)) s).
  assert (H : forall l s2, steady s1 s2 ->
            steady s1 (foldl (fun s x => enqueue (payload_of (command x))
                                           (for_heartbeat x) s) s2 l)).
  { induction l as [|x l IH]; intros s2 H2; simpl; [assumption|].
    apply IH. auto with steady. }
  destruct (H (filter (fun x => awaited x = w) (waiters s)) s1 (steady_refl s1)).
  unfold s1 in *. simpl in *. repeat split; assumption.
Qed.
(** ** The invariant of the serial queue *)

Lemma enqueued_snoc (tr : list Effect) (e : Effect) :
  enqueued (tr ++ [e]) = enqueued tr ++ enqueued [e].
Proof. apply omap_app. Qed.

Lemma written_snoc (tr : list Effect) (e : Effect) :
  written (tr ++ [e]) = written tr ++ written [e].
Proof. apply omap_app. Qed.

Lemma settled_snoc (tr : list Effect) (e : Effect) :
  settled (tr ++ [e]) = settled tr ++ settled [e].
Proof. apply omap_app. Qed.

Lemma Serial_new (u : string) (o : ValisClientOptions) : Serial (new u o).
Proof.
  exists []. constructor; simpl; auto.
  - left. constructor.
  - constructor.
Qed.

Lemma still_enqueued (s s' : State) :
  still s s' -> enqueued (trace s') = enqueued (trace s).
Proof. intros []. rewrite <- enqueued_ledger, still_ledger0. apply enqueued_ledger. Qed.

Lemma still_written (s s' : State) :
  still s s' -> written (trace s') = written (trace s).
Proof. intros []. rewrite <- written_ledger, still_ledger0. apply written_ledger. Qed.

Lemma still_settled (s s' : State) :
  still s s' -> settled (trace s') = settled (trace s).
Proof. intros []. rewrite <- settled_ledger, still_ledger0. apply settled_ledger. Qed.

Lemma still_failures (s s' : State) :
  still s s' -> failures (trace s') = failures (trace s).
Proof. intros []. rewrite <- failures_ledger, still_ledger0. apply failures_ledger. Qed.

Lemma Serial_with_still (gone : list (nat * string)) (s s' : State) :
  still s s' -> Serial_with gone s -> Serial_with gone s'.
Proof.
  intros Hst [].
  pose proof (still_enqueued _ _ Hst) as He.
  pose proof (still_written _ _ Hst) as Hw.
  pose proof (still_settled _ _ Hst) as Hd.
  destruct Hst.
  constructor; rewrite ?He, ?Hw, ?Hd, ?still_queue0, ?still_flag0, ?still_timers0;
    try assumption.
  eapply Forall_impl; [eassumption|]. simpl. intros. lia.
Qed.

Lemma Serial_still (s s' : State) : still s s' -> Serial s -> Serial s'.
Proof. intros Hst [gone H]. exists gone. eauto using Serial_with_still. Qed.

(** The queued requests have distinct identifiers. *)
Lemma Serial_queue_nodup (gone : list (nat * string)) (s : State) :
  Serial_with gone s -> NoDup (map (fun it => rid (completion it)) (queue s)).
Proof.
  intros []. rewrite serial_fifo0, fmap_app in serial_nodup0.
  apply NoDup_app in serial_nodup0 as (_ & _ & H).
  rewrite <- list_fmap_compose in H. exact H.
Qed.

(** No queued request is among those that left. *)
Lemma Serial_queue_fresh (gone : list (nat * string)) (s : State) (it : QueueItem) :
  Serial_with gone s -> it ∈ queue s -> key it ∉ gone.
Proof.
  intros [] Hin Hg. rewrite serial_fifo0, fmap_app in serial_nodup0.
  apply NoDup_app in serial_nodup0 as (_ & Hdis & _).
  apply (Hdis (key it).1).
  - apply list_elem_of_fmap. eauto.
  - apply list_elem_of_fmap. exists (key it). split; [reflexivity|].
    apply list_elem_of_fmap. eauto.
Qed.

(** Clearing the timer of the head leaves the timers of the rest. *)
Lemma clear_head_timer (gone : list (nat * string)) (s : State)
    (front : QueueItem) (rest : list QueueItem) :
  Serial_with gone s -> queue s = front :: rest ->
  filter (fun t => timer_id t ≠ timeoutId front) (requestTimers s)
  = map timer_of rest.
Proof.
  intros H Hq. pose proof (Serial_queue_nodup _ _ H) as Hnd.
  destruct H. rewrite serial_timers0, Hq in *. simpl.
  rewrite filter_cons_False by (simpl; auto).
  apply NoDup_cons in Hnd as [Hfront _].
  apply Forall_cons in serial_ids0 as [Hid Hids].
  clear - Hfront Hid Hids.
  induction rest as [|x rest IH]; [reflexivity|].
  apply Forall_cons in Hids as [Hx Hids].
  simpl in Hfront. apply not_elem_of_cons in Hfront as [Hne Hfront].
  rewrite map_cons, filter_cons_True.
  - f_equal. now apply IH.
  - simpl. rewrite Hx, Hid. congruence.
Qed.

(** The head leaves the queue and its completion fires. *)
Lemma Serial_shift (s s' : State) (front : QueueItem) (rest : list QueueItem)
    (e : Effect) :
  Serial s ->
  queue s = front :: rest ->
  queue s' = rest ->
  requestTimers s' = map timer_of rest ->
  nextId s <= nextId s' ->
  ledger (trace s') = ledger (trace s) ++ [e] ->
  settles e = Some (rid (completion front)) ->
  Serial s'.
Proof.
  intros [gone H] Hq Hq' Ht' Hn HL He.
  assert (Henq : enqueued (trace s') = enqueued (trace s)).
  { rewrite <- enqueued_ledger, HL, enqueued_snoc, enqueued_ledger.
    destruct e; try discriminate; simpl; apply app_nil_r. }
  assert (Hwr : written (trace s') = written (trace s)).
  { rewrite <- written_ledger, HL, written_snoc, written_ledger.
    destruct e; try discriminate; simpl; apply app_nil_r. }
  assert (Hset : settled (trace s') = settled (trace s) ++ [rid (completion front)]).
  { rewrite <- settled_ledger, HL, settled_snoc, settled_ledger.
    unfold settled at 2. simpl. now rewrite He. }
  destruct H. rewrite Hq in *.
  exists (gone ++ [key front]). constructor; rewrite ?Henq, ?Hwr, ?Hset, ?Hq'.
  - rewrite serial_fifo0. simpl. now rewrite <- app_assoc.
  - rewrite fmap_app, serial_gone0. reflexivity.
  - left. destruct serial_wire0 as [Hs|(f & r & before & Hfr & _ & -> & Hb)].
    + now apply sublist_inserts_r.
    + injection Hfr as <- <-. now apply sublist_app.
  - assumption.
  - now apply Forall_cons in serial_ids0 as [_ ?].
  - eapply Forall_impl; [eassumption|]. simpl. intros. lia.
  - assumption.
Qed.

(** With nothing queued the flag is free to change. *)
Lemma Serial_flag (s : State) (v : bool) :
  Serial s -> queue s = [] -> Serial (set_awaitingResponse v s).
Proof.
  intros [gone []] Hq. exists gone. constructor; simpl; try assumption.
  rewrite Hq in *. destruct serial_wire0 as [Hs|(f & r & _ & Hfr & _)].
  - now left.
  - discriminate.
Qed.

Lemma Serial_flushQueue (s : State) : Serial s -> Serial (flushQueue s).
Proof.
  intros HS. unfold flushQueue.
  destruct (ws_is_OPEN s); simpl; [|assumption].
  destruct (awaitingResponse s) eqn:Hflag; [assumption|].
  destruct (queue s) as [|front rest] eqn:Hq; [assumption|].
  destruct (ws s) as [w|]; [|assumption].
  destruct HS as [gone []]. exists gone.
  constructor; simpl; rewrite ?enqueued_snoc, ?settled_snoc, ?written_snoc;
    simpl; rewrite ?app_nil_r; try assumption.
  rewrite Hq, Hflag in *. right. exists front, rest, (written (trace s)).
  repeat split.
  destruct serial_wire0 as [Hs|(f & r & _ & _ & Hf & _)]; [assumption|discriminate].
Qed.

Lemma Serial_enqueue text hb (s : State) :
  Serial s -> Serial (enqueue text hb s).
Proof.
  intros [gone []]. unfold enqueue. apply Serial_flushQueue.
  exists gone. constructor; simpl;
    rewrite ?enqueued_snoc, ?settled_snoc, ?written_snoc;
    simpl; rewrite ?app_nil_r.
  - rewrite serial_fifo0, map_app, <- app_assoc. reflexivity.
  - assumption.
  - destruct serial_wire0 as [Hs|(f & r & before & Hfr & Hfl & Hw & Hb)];
      [now left|right].
    exists f, (r ++ [{| payload := text;
                        completion := {| rid := nextId s; from_heartbeat := hb |};
                        timeoutId := nextId s |}]), before.
    rewrite Hfr. repeat split; assumption.
  - rewrite serial_timers0, map_app. reflexivity.
  - apply Forall_app. split; [assumption|]. repeat constructor.
  - apply Forall_app. split.
    + eapply Forall_impl; [eassumption|]. simpl. intros. lia.
    + repeat constructor; simpl; lia.
  - rewrite fmap_app. apply NoDup_app. repeat split; [assumption| |].
    + intros x Hx Hx'. apply list_elem_of_fmap in Hx as (y & -> & Hy).
      rewrite Forall_forall in serial_fresh0. apply serial_fresh0 in Hy.
      simpl in Hx'. apply list_elem_of_singleton in Hx'. lia.
    + simpl. apply NoDup_singleton.
Qed.

(** ** Every listener keeps the invariant *)

(** What a reply does to the queue, before the next flush. *)
Lemma Serial_reply (s : State) (front : QueueItem) (rest : list QueueItem)
    (d : Data) :
  Serial s -> queue s = front :: rest ->
  Serial (does (Resolved (rid (completion front)) d)
            (clearTimeout (timeoutId front)
               (set_queue rest (set_awaitingResponse false s)))).
Proof.
  intros HS Hq. pose proof HS as [gone Hg].
  eapply (Serial_shift s _ front rest (Resolved (rid (completion front)) d));
    [exact HS | exact Hq | reflexivity | simpl | simpl; lia | simpl | reflexivity].
  - eapply clear_head_timer; eauto.
  - rewrite ledger_snoc. reflexivity.
Qed.

Lemma Serial_onMessage d (s : State) : Serial s -> Serial (onMessage d s).
Proof.
  intros HS. unfold onMessage. simpl.
  destruct (queue s) as [|front rest] eqn:Hq.
  - apply Serial_flushQueue.
    apply (Serial_still (set_awaitingResponse false s)); [auto with still|].
    now apply Serial_flag.
  - eapply Serial_still; [apply still_heartbeat_settled, still_refl|].
    apply Serial_flushQueue. now apply Serial_reply.
Qed.

(** The oldest request timer is the one of the head of the queue. *)
Lemma oldest_timer (s : State) (t : RequestTimer) (armed : list RequestTimer) :
  Serial s -> requestTimers s = t :: armed ->
  exists front rest,
    queue s = front :: rest /\ t = timer_of front /\ armed = map timer_of rest.
Proof.
  intros [gone []] Ht. rewrite Ht in serial_timers0.
  destruct (queue s) as [|front rest]; [discriminate|].
  injection serial_timers0 as -> ->. eauto.
Qed.

Lemma Serial_requestTimeout (s : State) (t : RequestTimer)
    (armed : list RequestTimer) :
  Serial s -> requestTimers s = t :: armed ->
  Serial (requestTimeout t (set_requestTimers armed s)).
Proof.
  intros HS Ht.
  destruct (oldest_timer s t armed HS Ht) as (front & rest & Hq & -> & ->).
  unfold requestTimeout. simpl. rewrite Hq, String.eqb_refl.
  eapply Serial_still;
    [apply still_heartbeat_settled, still_maybeReconnectOnTimeout, still_refl|].
  eapply (Serial_shift s _ front rest
            (Rejected (rid (completion front))
                      (RequestTimedOut (requestTimeoutMs (opts s)))));
    [exact HS | exact Hq | reflexivity | reflexivity | simpl; lia | simpl
    | reflexivity].
  rewrite ledger_snoc. reflexivity.
Qed.

(** The drain of [onClose]: the queue is emptied from the head, and every
    request that was in it is rejected with "Connection closed". *)
Lemma rejectPending_spec (pending : list QueueItem) (s : State) :
  Serial s -> queue s = pending ->
  Serial (rejectPending pending s) /\
  queue (rejectPending pending s) = [] /\
  awaitingResponse (rejectPending pending s) = awaitingResponse s /\
  ledger (trace (rejectPending pending s))
  = ledger (trace s)
      ++ map (fun it => Rejected (rid (completion it)) ConnectionClosed) pending.
Proof.
  revert s. induction pending as [|it rest IH]; intros s HS Hq; simpl.
  - rewrite app_nil_r. auto.
  - pose proof HS as [gone Hg].
    destruct (IH (does (Rejected (rid (completion it)) ConnectionClosed)
                    (clearTimeout (timeoutId it) (set_queue rest s))))
      as (H1 & H2 & H3 & H4).
    + eapply (Serial_shift s _ it rest
                (Rejected (rid (completion it)) ConnectionClosed));
        [exact HS | exact Hq | reflexivity | simpl | simpl; lia | simpl
        | reflexivity].
      * eapply clear_head_timer; eauto.
      * rewrite ledger_snoc. reflexivity.
    + reflexivity.
    + repeat split; try assumption.
      rewrite H4. simpl. rewrite ledger_snoc. simpl. now rewrite <- app_assoc.
Qed.

Lemma Serial_onClose w code reason rnd (s : State) :
  Serial s -> Serial (onClose w code reason rnd s).
Proof.
  intros HS. unfold onClose.
  set (s1 := emit (EvClose code reason)
               (stopHeartbeat (log warn "WebSocket closed" (setStatus closed s)))).
  assert (HS1 : Serial s1).
  { apply (Serial_still s); [|assumption]. unfold s1. auto 10 with still. }
  destruct (rejectPending_spec (queue s1) s1 HS1 eq_refl) as (HS2 & _).
  eapply Serial_still; [|exact HS2].
  apply still_settle_all. case_match; auto 10 with still.
Qed.

Lemma Serial_resume w (s : State) : Serial s -> Serial (resume w s).
Proof.
  unfold resume. intros HS.
  generalize (filter (fun x => awaited x = w) (waiters s)).
  assert (H' : Serial (set_waiters (filter (fun x => awaited x ≠ w) (waiters s)) s)).
  { eapply Serial_still; [|exact HS]. auto with still. }
  revert H'. generalize (set_waiters (filter (fun x => awaited x ≠ w) (waiters s)) s).
  intros s1 H1 l. revert s1 H1.
  induction l as [|x l IH]; intros s1 H1; simpl; [assumption|].
  apply IH. now apply Serial_enqueue.
Qed.

Lemma Serial_sendCommand c hb (s : State) :
  Serial s -> Serial (sendCommand c hb s).
Proof.
  intros HS. unfold sendCommand.
  destruct (ws_is_OPEN s); [now apply Serial_enqueue|].
  pose proof (still_connect s s (still_refl s)) as Hc.
  destruct (connect s) as [s1 [e| |p]]; simpl in Hc.
  - eapply Serial_still; [|exact HS]. auto 10 with still.
  - apply Serial_enqueue. eapply Serial_still; eauto.
  - eapply Serial_still; [|exact HS]. auto 10 with still.
Qed.

Lemma Serial_onOpen w (s : State) : Serial s -> Serial (onOpen w s).
Proof.
  intros HS. unfold onOpen.
  eapply Serial_still.
  - apply still_does; [reflexivity|].
    apply still_set_connectPromise, still_startHeartbeat, still_refl.
  - apply Serial_flushQueue. eapply Serial_still; [|exact HS]. auto 10 with still.
Qed.

Lemma Serial_heartbeatTick (s : State) : Serial s -> Serial (heartbeatTick s).
Proof.
  intros HS. unfold heartbeatTick. case_match; [assumption|].
  apply Serial_sendCommand. eapply Serial_still; [|exact HS]. auto with still.
Qed.

Lemma Serial_step (s : State) (i : Input) : Serial s -> Serial (step s i).
Proof.
  intros HS. destruct i; simpl.
  - eapply Serial_still; [|exact HS]. auto with still.
  - eapply Serial_still; [|exact HS]. auto with still.
  - now apply Serial_sendCommand.
  - repeat case_match; try assumption.
    apply Serial_resume. eapply Serial_still; [apply still_disarm, still_refl|].
    apply Serial_onOpen. eapply Serial_still; [|exact HS]. auto with still.
  - repeat case_match; try assumption; now apply Serial_onMessage.
  - repeat case_match; try assumption.
    apply Serial_onClose. eapply Serial_still; [|exact HS]. auto with still.
  - repeat case_match; try assumption.
    eapply Serial_still; [|exact HS]. auto with still.
  - destruct (requestTimers s) as [|t armed] eqn:Ht; [assumption|].
    case_match; [|assumption]. now apply Serial_requestTimeout.
  - repeat case_match; try assumption.
    eapply Serial_still; [|exact HS]. auto with still.
  - case_match; [|assumption]. now apply Serial_heartbeatTick.
  - case_match; [assumption|].
    eapply Serial_still; [|exact HS]. auto with still.
Qed.

Lemma Serial_run (s : State) (inputs : list Input) :
  Serial s -> Serial (run s inputs).
Proof.
  revert s. induction inputs as [|i inputs IH]; intros s HS; simpl; [assumption|].
  apply IH. now apply Serial_step.
Qed.

Lemma Counted_new (u : string) (o : ValisClientOptions) : Counted (new u o).
Proof. reflexivity. Qed.

Lemma heartbeat_input_or_not (i : Input) :
  i = HeartbeatTimerFires \/ i <> HeartbeatTimerFires.
Proof. destruct i; auto; right; discriminate. Qed.

Lemma Counted_step (s : State) (i : Input) : Counted s -> Counted (step s i).
Proof.
  intros HC. destruct (heartbeat_input_or_not i) as [->|Hi].
  - simpl. case_match; [|assumption]. unfold heartbeatTick.
    case_match; [assumption|].
    apply (mild_counted (does Probe s) _); [auto with mild|].
    now apply Counted_does.
  - apply (mild_counted s (step s i)); [now apply mild_step|assumption].
Qed.

Lemma Counted_run (s : State) (inputs : list Input) :
  Counted s -> Counted (run s inputs).
Proof.
  revert s. induction inputs as [|i inputs IH]; intros s HS; simpl; [assumption|].
  apply IH. now apply Counted_step.
Qed.

Lemma opts_step (s : State) (i : Input) : opts (step s i) = opts s.
Proof.
  destruct (heartbeat_input_or_not i) as [->|Hi].
  - simpl. case_match; [|reflexivity]. unfold heartbeatTick.
    case_match; [reflexivity|].
    now rewrite (mild_opts (does Probe s)) by auto with mild.
  - now apply mild_opts, mild_step.
Qed.

Lemma opts_run (s : State) (inputs : list Input) : opts (run s inputs) = opts s.
Proof.
  revert s. induction inputs as [|i inputs IH]; intros s; simpl; [reflexivity|].
  now rewrite IH, opts_step.
Qed.

(** ** What holds in every run *)

Lemma trace_step (s : State) (i : Input) : trace s `prefix_of` trace (step s i).
Proof.
  destruct (heartbeat_input_or_not i) as [->|Hi].
  - simpl. case_match; [|reflexivity]. unfold heartbeatTick.
    case_match; [reflexivity|].
    transitivity (trace (does Probe s)); [now apply prefix_app_r|].
    apply mild_trace. auto with mild.
  - now apply mild_trace, mild_step.
Qed.

Lemma trace_run (s : State) (inputs : list Input) :
  trace s `prefix_of` trace (run s inputs).
Proof.
  revert s. induction inputs as [|i inputs IH]; intros s; simpl; [reflexivity|].
  transitivity (trace (step s i)); [apply trace_step|apply IH].
Qed.

Lemma run_snoc (s : State) (inputs : list Input) (i : Input) :
  run s (inputs ++ [i]) = step (run s inputs) i.
Proof. unfold run. now rewrite foldl_app. Qed.

Lemma run_app (s : State) (inputs later : list Input) :
  run s (inputs ++ later) = run (run s inputs) later.
Proof. unfold run. now rewrite foldl_app. Qed.

(** The writes of a run are among its enqueued requests, in their order. *)
Lemma Serial_written (s : State) :
  Serial s -> written (trace s) `sublist_of` enqueued (trace s).
Proof.
  intros [gone []]. rewrite serial_fifo0.
  destruct serial_wire0 as [Hs|(f & r & before & Hq & _ & -> & Hb)].
  - now apply sublist_inserts_r.
  - rewrite Hq. simpl. apply sublist_app; [assumption|].
    apply sublist_skip, sublist_nil_l.
Qed.

Lemma filter_none {A : Type} (P : A -> Prop) `{!forall x, Decision (P x)}
    (l : list A) :
  Forall (fun x => ~ P x) l -> filter P l = [].
Proof.
  induction 1 as [|x l Hx _ IH]; [reflexivity|].
  now rewrite filter_cons_False.
Qed.

(** Only the head of the queue can be in flight, and then the flag is up. *)
Lemma Serial_in_flight (s : State) :
  Serial s ->
  filter (in_flight s) (queue s) = [] \/
  (awaitingResponse s = true /\
   exists front rest,
     queue s = front :: rest /\ filter (in_flight s) (queue s) = [front]).
Proof.
  intros [gone H]. pose proof H as [].
  destruct serial_wire0 as [Hs|(f & r & before & Hq & Hfl & Hw & Hb)].
  - left. apply filter_none, Forall_forall. intros x Hx Hin.
    apply (Serial_queue_fresh gone s x H Hx).
    eapply sublist_subseteq; eassumption.
  - right. split; [assumption|]. exists f, r. split; [assumption|].
    assert (Hf : in_flight s f).
    { unfold in_flight. rewrite Hw. apply elem_of_app. right. constructor. }
    pose proof (Serial_queue_nodup gone s H) as Hnd.
    assert (Hr : Forall (fun x => ~ in_flight s x) r).
    { apply Forall_forall. intros x Hx Hin. unfold in_flight in Hin.
      rewrite Hw in Hin. apply elem_of_app in Hin as [Hin|Hin].
      - apply (Serial_queue_fresh gone s x H); [rewrite Hq; now right|].
        eapply sublist_subseteq; eassumption.
      - apply list_elem_of_singleton in Hin.
        rewrite Hq in Hnd. simpl in Hnd. apply NoDup_cons in Hnd as [Hnf _].
        apply Hnf. apply list_elem_of_fmap. exists x. split; [|assumption].
        unfold key in Hin. congruence. }
    rewrite Hq, filter_cons_True by assumption.
    f_equal. now apply filter_none.
Qed.

(** A reply goes to the head of the queue. *)
Lemma onMessage_head (s : State) (d : Data) :
  match queue s with
  | front :: rest =>
      queue (onMessage d s) = rest /\
      exists more,
        trace (onMessage d s)
        = trace s ++ Resolved (rid (completion front)) (decode d) :: more
  | [] =>
      queue (onMessage d s) = [] /\
      settled (trace (onMessage d s)) = settled (trace s)
  end.
Proof.
  unfold onMessage. simpl. destruct (queue s) as [|front rest] eqn:Hq.
  - set (s1 := emit (EvMessage (decode d)) (set_awaitingResponse false s)).
    assert (Hq1 : queue s1 = []) by exact Hq.
    unfold flushQueue. rewrite Hq1. repeat case_match; simpl;
      rewrite ?settled_snoc, ?app_nil_r; auto.
  - set (s1 := does (Resolved (rid (completion front)) (decode d))
                 (clearTimeout (timeoutId front)
                    (set_queue rest (set_awaitingResponse false s)))).
    assert (Hs : still (flushQueue s1)
                   (heartbeat_settled (from_heartbeat (completion front)) true
                      (flushQueue s1)))
      by auto with still.
    assert (Hm : mild s1
                   (heartbeat_settled (from_heartbeat (completion front)) true
                      (flushQueue s1)))
      by auto with mild.
    split.
    + rewrite (still_queue _ _ Hs). unfold flushQueue.
      repeat case_match; reflexivity.
    + destruct (mild_trace _ _ Hm) as [more Hmore]. exists more.
      rewrite Hmore. unfold s1. simpl. now rewrite <- app_assoc.
Qed.

(** ** What is written, and when *)

Lemma ws_is_OPEN_steady (s s' : State) :
  steady s s' -> ws_is_OPEN s' = ws_is_OPEN s.
Proof. intros []. unfold ws_is_OPEN. now rewrite steady_ws0, steady_sockets0. Qed.

(** [flushQueue] writes the head of the queue when the socket is open and
    the flag is down, and raises the flag; it does nothing else. *)
Lemma flushQueue_spec (s : State) :
  let s' := flushQueue s in
  queue s' = queue s /\
  enqueued (trace s') = enqueued (trace s) /\
  settled (trace s') = settled (trace s) /\
  written (trace s')
  = written (trace s)
      ++ (if ws_is_OPEN s && negb (awaitingResponse s)
          then map key (take 1 (queue s)) else []) /\
  awaitingResponse s'
  = awaitingResponse s || (ws_is_OPEN s && negb (bool_decide (queue s = []))).
Proof.
  unfold flushQueue. destruct (ws_is_OPEN s) eqn:Hopen; simpl.
  - destruct (awaitingResponse s) eqn:Hflag; simpl.
    + rewrite Hflag, app_nil_r. auto.
    + destruct (queue s) as [|front rest] eqn:Hq; simpl.
      * rewrite Hflag, app_nil_r. auto.
      * destruct (ws s) as [w|] eqn:Hws.
        -- simpl. rewrite enqueued_snoc, settled_snoc, written_snoc. simpl.
           rewrite !app_nil_r. auto.
        -- unfold ws_is_OPEN in Hopen. rewrite Hws in Hopen. discriminate.
  - rewrite app_nil_r, orb_false_r. auto.
Qed.

(** The executor of [sendCommand]: the request joins the tail of the queue,
    and the head of the queue is written if the socket is open and nothing
    is in flight. *)
Lemma enqueue_spec (text : string) (hb : bool) (s : State) :
  let item :=
    {| payload := text;
       completion := {| rid := nextId s; from_heartbeat := hb |};
       timeoutId := nextId s |} in
  let s' := enqueue text hb s in
  queue s' = queue s ++ [item] /\
  enqueued (trace s') = enqueued (trace s) ++ [key item] /\
  settled (trace s') = settled (trace s) /\
  written (trace s')
  = written (trace s)
      ++ (if ws_is_OPEN s && negb (awaitingResponse s)
          then map key (take 1 (queue s ++ [item])) else []) /\
  awaitingResponse s' = awaitingResponse s || ws_is_OPEN s.
Proof.
  intros item. unfold enqueue.
  match goal with
  | |- context [flushQueue ?x] =>
      set (s1 := x); destruct (flushQueue_spec s1) as (Q & E & S & W & F)
  end.
  assert (Hopen : ws_is_OPEN s1 = ws_is_OPEN s) by reflexivity.
  cbv zeta. rewrite Q, E, S, W, F, Hopen. unfold s1. simpl.
  rewrite enqueued_snoc, settled_snoc, written_snoc. simpl.
  rewrite !app_nil_r. repeat split.
  destruct (queue s); simpl; now rewrite ?andb_true_r.
Qed.

(** The message listener: the head of the queue is resolved, and the next
    request is written if the socket is open. *)
Lemma onMessage_spec (d : Data) (s : State) :
  let s' := onMessage d s in
  queue s' = tail (queue s) /\
  enqueued (trace s') = enqueued (trace s) /\
  settled (trace s')
  = settled (trace s) ++ map (fun it => rid (completion it)) (take 1 (queue s)) /\
  written (trace s')
  = written (trace s)
      ++ (if ws_is_OPEN s then map key (take 1 (tail (queue s))) else []) /\
  awaitingResponse s'
  = ws_is_OPEN s && negb (bool_decide (tail (queue s) = [])).
Proof.
  unfold onMessage. simpl. destruct (queue s) as [|front rest] eqn:Hq.
  - match goal with
    | |- context [flushQueue ?x] =>
        set (s1 := x); destruct (flushQueue_spec s1) as (Q & E & S & W & F)
    end.
    assert (Hopen : ws_is_OPEN s1 = ws_is_OPEN s) by reflexivity.
    cbv zeta. rewrite Q, E, S, W, F, Hopen. unfold s1, emit. simpl.
    rewrite Hq, enqueued_snoc, settled_snoc, written_snoc. simpl.
    rewrite !app_nil_r, andb_true_r. repeat split.
  - match goal with
    | |- context [heartbeat_settled ?hb true (flushQueue ?x)] =>
        set (s1 := x); destruct (flushQueue_spec s1) as (Q & E & S & W & F);
        assert (Hst : still (flushQueue s1) (heartbeat_settled hb true (flushQueue s1)))
          by auto with still
    end.
    assert (Hopen : ws_is_OPEN s1 = ws_is_OPEN s) by reflexivity.
    cbv zeta.
    rewrite (still_queue _ _ Hst), (still_flag _ _ Hst), (still_enqueued _ _ Hst),
      (still_written _ _ Hst), (still_settled _ _ Hst).
    rewrite Q, E, S, W, F, Hopen. unfold s1. simpl.
    rewrite enqueued_snoc, settled_snoc, written_snoc. simpl.
    rewrite !app_nil_r, andb_true_r. repeat split.
Qed.

Lemma steady_onMessage (d : Data) (s : State) : steady s (onMessage d s).
Proof.
  unfold onMessage. simpl. destruct (queue s); simpl.
  - auto with steady.
  - apply steady_heartbeat_settled; auto 10 with steady.
Qed.

(** ** Serving traffic on an open connection *)

Lemma Flow_open (s0 : State) (w : nat) (done : list (nat * string)) (s : State) :
  Flow s0 w done s -> ws_is_OPEN s = true.
Proof.
  intros [Hws (k & Hk & Hr & _) _ _ _ _ _].
  unfold ws_is_OPEN. now rewrite Hws, Hk, Hr.
Qed.

Lemma Flow_steady (s0 : State) (w : nat) (done : list (nat * string))
    (s s' : State) :
  Flow s0 w done s -> steady s s' ->
  ws s' = Some w /\
  exists k, sockets s' !! w = Some k /\ readyState k = OPEN /\ listeners k = true.
Proof.
  intros [Hws Hk _ _ _ _ _] []. rewrite steady_ws0, steady_sockets0. auto.
Qed.

Lemma Flow_step (s0 : State) (w : nat) (done : list (nat * string)) (s : State)
    (t : Traffic) :
  Flow s0 w done s ->
  let s' := step s (traffic_input w t) in
  exists done',
    Flow s0 w done' s' /\
    length (queue s') = serve (length (queue s)) t /\
    (done' ++ map key (queue s')).*2
    = (done ++ map key (queue s)).*2 ++ issued [t].
Proof.
  intros HF. pose proof (Flow_open _ _ _ _ HF) as Hopen.
  destruct t as [c|d]; simpl.
  - unfold sendCommand. rewrite Hopen.
    destruct (enqueue_spec (payload_of c) false s) as (Q & E & S & W & F).
    destruct (Flow_steady _ _ _ _ _ HF
                (steady_enqueue (payload_of c) false s s (steady_refl s)))
      as (Hws & Hk).
    destruct HF. exists done. split; [constructor|split].
    + assumption.
    + assumption.
    + rewrite F, Hopen, orb_true_r, Q. now destruct (queue s).
    + rewrite Q. apply Forall_app. split; [assumption|]. repeat constructor.
    + rewrite E, Q, flow_enqueued0, map_app, <- !app_assoc. reflexivity.
    + rewrite W, Q, Hopen, flow_written0, flow_flag0. simpl.
      destruct (queue s); simpl; now rewrite <- ?app_assoc, ?app_nil_r.
    + now rewrite S.
    + rewrite Q, length_app. simpl. lia.
    + rewrite Q, !map_app, <- !app_assoc. reflexivity.
  - destruct (Flow_steady _ _ _ _ _ HF (steady_onMessage d s)) as (Hws & Hk).
    destruct (onMessage_spec d s) as (Q & E & S & W & F).
    destruct HF. destruct flow_socket0 as (k & Hlook & Hr & Hl).
    rewrite Hlook, Hr, Hl.
    exists (done ++ map key (take 1 (queue s))). split; [constructor|split].
    + assumption.
    + assumption.
    + rewrite F, Hopen, Q. reflexivity.
    + rewrite Q. destruct (queue s); [constructor|].
      now apply Forall_cons in flow_users0 as [_ ?].
    + rewrite E, Q, flow_enqueued0. destruct (queue s); simpl;
        now rewrite <- ?app_assoc, ?app_nil_r.
    + rewrite W, Q, Hopen, flow_written0, <- !app_assoc. reflexivity.
    + rewrite S, flow_settled0, fmap_app, <- app_assoc. f_equal. f_equal.
      destruct (queue s); reflexivity.
    + rewrite Q. now destruct (queue s).
    + rewrite Q, app_nil_r. destruct (queue s); simpl;
        now rewrite <- ?app_assoc, ?app_nil_r.
Qed.

Lemma issued_cons (t : Traffic) (traffic : list Traffic) :
  issued (t :: traffic) = issued [t] ++ issued traffic.
Proof. destruct t; reflexivity. Qed.

Lemma Flow_run (s0 : State) (w : nat) (traffic : list Traffic) :
  forall (done : list (nat * string)) (s : State),
    Flow s0 w done s ->
    let s' := run s (map (traffic_input w) traffic) in
    exists done',
      Flow s0 w done' s' /\
      length (queue s') = foldl serve (length (queue s)) traffic /\
      (done' ++ map key (queue s')).*2
      = (done ++ map key (queue s)).*2 ++ issued traffic.
Proof.
  induction traffic as [|t traffic IH]; intros done s HF.
  - exists done. simpl. rewrite app_nil_r. auto.
  - destruct (Flow_step s0 w done s t HF) as (done1 & HF1 & Hlen1 & Hiss1).
    destruct (IH done1 _ HF1) as (done2 & HF2 & Hlen2 & Hiss2).
    exists done2. rewrite issued_cons.
    change (run s (map (traffic_input w) (t :: traffic)))
      with (run (step s (traffic_input w t)) (map (traffic_input w) traffic)).
    change (foldl serve (length (queue s)) (t :: traffic))
      with (foldl serve (serve (length (queue s)) t) traffic).
    rewrite Hlen2, Hlen1, Hiss2, Hiss1, <- app_assoc. auto.
Qed.

(** C1: single-flight FIFO serialization.  In every run, whatever the
    interleaving of calls, replies, timer expiries and closes: the requests
    written to the socket are written in the order they were enqueued, each
    at most once; the queue holds, oldest first, exactly the enqueued requests
    whose completion has not fired; at most one queued request is in flight
    (written and still queued), which is then the head, with the in-flight
    flag up.  A reply resolves the head of the queue and, on an open socket,
    writes the next request; a command sent on an open socket joins the tail
    and is written at once when nothing is in flight.  When commands and
    replies arrive, in any interleaving, at a client that is open and idle,
    every command is enqueued in call order, the requests are settled and
    written in exactly that order, and the requests written are those settled
    and the head of the queue. *)
Theorem single_flight_fifo (u : string) (o : ValisClientOptions)
    (inputs : list Input) (d : Data) (c : Command) :
  let s := run (new u o) inputs in
  written (trace s) `sublist_of` enqueued (trace s) /\
  NoDup (enqueued (trace s)).*1 /\
  NoDup (written (trace s)).*1 /\
  (exists gone,
     enqueued (trace s) = gone ++ map key (queue s) /\
     gone.*1 = settled (trace s)) /\
  match queue s with
  | front :: rest =>
      queue (onMessage d s) = rest /\
      exists more,
        trace (onMessage d s)
        = trace s ++ Resolved (rid (completion front)) (decode d) :: more
  | [] =>
      queue (onMessage d s) = [] /\
      settled (trace (onMessage d s)) = settled (trace s)
  end /\
  length (filter (in_flight s) (queue s)) <= 1 /\
  (filter (in_flight s) (queue s) = [] \/
   (awaitingResponse s = true /\
    exists front rest,
      queue s = front :: rest /\ filter (in_flight s) (queue s) = [front])) /\
  (* a reply writes the next request *)
  written (trace (onMessage d s))
  = written (trace s)
      ++ (if ws_is_OPEN s then map key (take 1 (tail (queue s))) else []) /\
  (* a command on an open socket is enqueued, and written when nothing is
     in flight *)
  (ws_is_OPEN s = true ->
   let item :=
     {| payload := payload_of c;
        completion := {| rid := nextId s; from_heartbeat := false |};
        timeoutId := nextId s |} in
   let s' := step s (CallSendCommand c) in
   queue s' = queue s ++ [item] /\
   enqueued (trace s') = enqueued (trace s) ++ [key item] /\
   written (trace s')
   = written (trace s)
       ++ (if awaitingResponse s then [] else map key (take 1 (queue s')))) /\
  (* commands and replies at an open, idle client *)
  (forall (w : nat) (k : Socket) (traffic : list Traffic),
     ws s = Some w -> sockets s !! w = Some k ->
     readyState k = OPEN -> listeners k = true ->
     queue s = [] -> awaitingResponse s = false ->
     let s' := run s (map (traffic_input w) traffic) in
     exists done,
       enqueued (trace s') = enqueued (trace s) ++ done ++ map key (queue s') /\
       (done ++ map key (queue s')).*2 = issued traffic /\
       length (queue s') = backlog traffic /\
       settled (trace s') = settled (trace s) ++ done.*1 /\
       written (trace s')
       = written (trace s) ++ done ++ map key (take 1 (queue s'))).
Proof.
  intros s.
  assert (HS : Serial s) by apply Serial_run, Serial_new.
  pose proof (Serial_in_flight s HS) as Hfl.
  assert (Hnd : NoDup (enqueued (trace s)).*1)
    by (destruct HS as [gone []]; assumption).
  split; [now apply Serial_written|].
  split; [assumption|].
  split.
  { eapply sublist_NoDup; [exact Hnd|]. now apply fmap_sublist, Serial_written. }
  split; [destruct HS as [gone []]; eauto|].
  split; [apply onMessage_head|].
  split; [destruct Hfl as [->|(_ & f & r & _ & ->)]; simpl; lia|].
  split; [assumption|].
  split; [apply onMessage_spec|].
  split.
  { intros Hopen item s'. unfold s'. simpl. unfold sendCommand. rewrite Hopen.
    destruct (enqueue_spec (payload_of c) false s) as (Q & E & _ & W & _).
    rewrite Q, E, W, Hopen. simpl. repeat split.
    now destruct (awaitingResponse s). }
  intros w k traffic Hws Hk Hr Hl Hq Hflag s'.
  assert (HF : Flow s w [] s).
  { constructor; rewrite ?Hq; simpl; rewrite ?app_nil_r; eauto. }
  destruct (Flow_run s w traffic [] s HF) as (done & [] & Hlen & Hiss).
  exists done. rewrite Hq in Hlen, Hiss. simpl in Hlen, Hiss.
  repeat split; assumption.
Qed.

Lemma failures_snoc (tr : list Effect) (e : Effect) :
  failures (tr ++ [e]) = failures tr ++ failures [e].
Proof. apply omap_app. Qed.

Lemma settled_prefix (tr tr' : list Effect) :
  tr `prefix_of` tr' -> settled tr `prefix_of` settled tr'.
Proof. intros [k ->]. unfold settled. rewrite omap_app. now apply prefix_app_r. Qed.

(** The completion of a queued request has not fired. *)
Lemma Serial_pending_unsettled (s : State) (it : QueueItem) :
  Serial s -> it ∈ queue s -> rid (completion it) ∉ settled (trace s).
Proof.
  intros [gone []] Hin Hs. rewrite <- serial_gone0 in Hs.
  rewrite serial_fifo0, fmap_app in serial_nodup0.
  apply NoDup_app in serial_nodup0 as (_ & Hdis & _).
  apply (Hdis _ Hs). apply list_elem_of_fmap. exists (key it).
  split; [reflexivity|]. apply list_elem_of_fmap. eauto.
Qed.

(** No completion fires twice. *)
Lemma Serial_settled_once (s : State) : Serial s -> NoDup (settled (trace s)).
Proof.
  intros [gone []]. rewrite <- serial_gone0.
  rewrite serial_fifo0, fmap_app in serial_nodup0.
  now apply NoDup_app in serial_nodup0 as (? & _ & _).
Qed.

(** The callback of a request timer tests the payload of the head: in any
    state, it removes the head exactly when the head carries the payload of
    the timer. *)
Lemma requestTimeout_test (t : RequestTimer) (s : State) :
  queue (requestTimeout t s)
  = match queue s with
    | front :: rest =>
        if String.eqb (payload front) (timer_payload t) then rest else queue s
    | [] => []
    end.
Proof.
  unfold requestTimeout.
  match goal with
  | |- context [heartbeat_settled ?hb false (maybeReconnectOnTimeout ?x)] =>
      assert (Hst : still x (heartbeat_settled hb false (maybeReconnectOnTimeout x)))
        by auto with still;
      rewrite (still_queue _ _ Hst)
  end.
  simpl. destruct (queue s) as [|front rest] eqn:Hq; [assumption|].
  destruct (String.eqb (payload front) (timer_payload t)); [reflexivity|assumption].
Qed.

(** What the expiry of the oldest request timer does. *)
Lemma requestTimeout_spec (s : State) (t : RequestTimer)
    (armed : list RequestTimer) :
  Serial s -> requestTimers s = t :: armed ->
  let s' := step s (RequestTimerFires (timer_id t)) in
  exists front rest,
    queue s = front :: rest /\ timer_of front = t /\
    queue s' = rest /\ awaitingResponse s' = false /\
    requestTimers s' = map timer_of rest /\
    ledger (trace s')
    = ledger (trace s)
        ++ [Rejected (rid (timer_completion t))
                     (RequestTimedOut (requestTimeoutMs (opts s)))].
Proof.
  intros HS Ht s'.
  destruct (oldest_timer s t armed HS Ht) as (front & rest & Hq & -> & ->).
  exists front, rest. split; [assumption|]. split; [reflexivity|].
  unfold s'. simpl. rewrite Ht. simpl. rewrite Nat.eqb_refl.
  unfold requestTimeout. simpl. rewrite Hq, String.eqb_refl.
  match goal with
  | |- context [heartbeat_settled ?hb false (maybeReconnectOnTimeout ?x)] =>
      assert (Hst : still x (heartbeat_settled hb false (maybeReconnectOnTimeout x)))
        by auto with still;
      destruct Hst as [H1 H2 H3 _ H5]; rewrite H1, H2, H3, H5
  end.
  simpl. rewrite ledger_snoc. auto.
Qed.

(** C2: request timeout.  In every run, when the timer of a request expires
    (the request got no reply within [requestTimeoutMs]), the completion of
    that request, which had not fired before, fails with "Request timed out
    after N ms", N being the configured [requestTimeoutMs]; the request
    occupies the head of the queue at that instant, it is removed, the
    in-flight flag is cleared, and the request is never in the queue again
    (removal and clearing go with occupying the head: both hold). *)
Theorem request_times_out (u : string) (o : ValisClientOptions)
    (inputs later : list Input) (t : RequestTimer) (armed : list RequestTimer) :
  let s := run (new u o) inputs in
  requestTimers s = t :: armed ->
  let s' := step s (RequestTimerFires (timer_id t)) in
  let who := rid (timer_completion t) in
  failures (trace s')
  = failures (trace s)
      ++ [(who, RequestTimedOut (requestTimeoutMs (mergeOptions o)))] /\
  settled (trace s') = settled (trace s) ++ [who] /\
  (who ∉ settled (trace s)) /\
  (exists front rest,
     queue s = front :: rest /\ timer_of front = t /\
     queue s' = rest /\ awaitingResponse s' = false /\
     requestTimers s' = map timer_of rest) /\
  ((exists front rest, queue s = front :: rest /\ timer_of front = t) <->
   (queue s' = tail (queue s) /\ awaitingResponse s' = false)) /\
  (who ∉ map (fun it => rid (completion it)) (queue s')) /\
  (who ∉ map (fun it => rid (completion it)) (queue (run s' later))).
Proof.
  intros s Ht s' who.
  assert (HS : Serial s) by apply Serial_run, Serial_new.
  assert (HS' : Serial s') by now apply Serial_step.
  assert (Ho : opts s = mergeOptions o) by apply opts_run.
  destruct (requestTimeout_spec s t armed HS Ht)
    as (front & rest & Hq & Hfront & Hq' & Hfl & Ht' & HL).
  fold s' in Hq', Hfl, Ht', HL. rewrite Ho in HL.
  assert (Hset : settled (trace s') = settled (trace s) ++ [who]).
  { rewrite <- settled_ledger, HL, settled_snoc, settled_ledger. reflexivity. }
  assert (Hlater : forall s'', Serial s'' -> trace s' `prefix_of` trace s'' ->
            who ∉ map (fun it => rid (completion it)) (queue s'')).
  { intros s'' HS'' Hpre Hin.
    apply list_elem_of_fmap in Hin as (it & Hit & Hin).
    apply (Serial_pending_unsettled s'' it HS'' Hin).
    apply settled_prefix in Hpre. rewrite Hset in Hpre.
    destruct Hpre as [k ->]. rewrite <- Hit.
    apply elem_of_app. left. apply elem_of_app. right. constructor. }
  split.
  { rewrite <- failures_ledger, HL, failures_snoc, failures_ledger. reflexivity. }
  split; [assumption|].
  split.
  { unfold who. rewrite <- Hfront. simpl.
    apply Serial_pending_unsettled; [assumption|]. rewrite Hq. constructor. }
  split; [eauto 10|].
  split.
  { split; [|eauto]. intros _. rewrite Hq. auto. }
  split.
  - apply Hlater; [assumption|reflexivity].
  - apply Hlater; [now apply Serial_run|apply trace_run].
Qed.

Lemma failures_closed (q : list QueueItem) :
  omap (fun e => match e with
                 | Rejected who err => Some (who, err)
                 | _ => None
                 end)
       (map (fun it => Rejected (rid (completion it)) ConnectionClosed) q)
  = map (fun it => (rid (completion it), ConnectionClosed)) q.
Proof. induction q as [|it q IH]; [reflexivity|]. simpl. f_equal. exact IH. Qed.

Lemma settled_closed (q : list QueueItem) :
  omap settles (map (fun it => Rejected (rid (completion it)) ConnectionClosed) q)
  = map (fun it => rid (completion it)) q.
Proof. induction q as [|it q IH]; [reflexivity|]. simpl. f_equal. exact IH. Qed.

(** What the close listener does to the queue. *)
Lemma onClose_spec w code reason rnd (s : State) :
  Serial s ->
  let s' := onClose w code reason rnd s in
  queue s' = [] /\
  awaitingResponse s' = awaitingResponse s /\
  ledger (trace s')
  = ledger (trace s)
      ++ map (fun it => Rejected (rid (completion it)) ConnectionClosed) (queue s).
Proof.
  intros HS. unfold onClose.
  set (s1 := emit (EvClose code reason)
               (stopHeartbeat (log warn "WebSocket closed" (setStatus closed s)))).
  assert (H1 : still s s1) by (unfold s1; auto 10 with still).
  assert (HS1 : Serial s1) by eauto using Serial_still.
  destruct (rejectPending_spec (queue s1) s1 HS1 eq_refl) as (_ & Hq & Hfl & HL).
  match goal with
  | |- context [foldl ?f ?x (queue s1)] =>
      assert (H2 : still (rejectPending (queue s1) s1) (foldl f x (queue s1)))
  end.
  { apply still_settle_all. case_match; auto 10 with still. }
  destruct H1 as [Q1 F1 _ _ L1], H2 as [Q2 F2 _ _ L2].
  cbv zeta. rewrite Q2, F2, L2, Hq, Hfl, HL, Q1, F1, L1. auto.
Qed.

(** C3: close drain.  In every run, when a socket of the client closes,
    whatever the code and the reason, every request then in the queue fails
    with "Connection closed", in queue (FIFO) order; these are the only
    completions that fire, none of them had fired before, and the queue and
    the set of armed request timers are empty afterwards. *)
Theorem close_drains_queue (u : string) (o : ValisClientOptions)
    (inputs : list Input) (w : nat) (code : Z) (reason : string) (rnd : float)
    (k : Socket) :
  let s := run (new u o) inputs in
  sockets s !! w = Some k -> listeners k = true -> readyState k <> CLOSED ->
  let s' := step s (SocketCloses w code reason rnd) in
  queue s' = [] /\
  requestTimers s' = [] /\
  failures (trace s')
  = failures (trace s)
      ++ map (fun it => (rid (completion it), ConnectionClosed)) (queue s) /\
  settled (trace s')
  = settled (trace s) ++ map (fun it => rid (completion it)) (queue s) /\
  NoDup (settled (trace s')).
Proof.
  intros s Hk Hl Hr s'.
  assert (HS : Serial s) by apply Serial_run, Serial_new.
  assert (HS' : Serial s') by now apply Serial_step.
  assert (Hs' : s' = onClose w code reason rnd (set_readyState CLOSED w s)).
  { unfold s'. simpl. rewrite Hk, Hl. destruct (readyState k); try reflexivity.
    congruence. }
  assert (HS1 : Serial (set_readyState CLOSED w s)).
  { eapply Serial_still; [|exact HS]. auto with still. }
  destruct (onClose_spec w code reason rnd _ HS1) as (Hq & _ & HL).
  rewrite <- Hs' in Hq, HL. simpl in HL.
  split; [assumption|].
  split.
  { destruct HS' as [gone []]. now rewrite serial_timers0, Hq. }
  split.
  { rewrite <- failures_ledger, HL. unfold failures. rewrite omap_app.
    fold (failures (ledger (trace s))). rewrite failures_ledger. f_equal.
    apply failures_closed. }
  split.
  { rewrite <- settled_ledger, HL. unfold settled. rewrite omap_app.
    fold (settled (ledger (trace s))). rewrite settled_ledger. f_equal.
    apply settled_closed. }
  now apply Serial_settled_once.
Qed.

(** ** The close listener and the in-flight flag *)

Lemma rejectPending_flag (pending : list QueueItem) (s : State) :
  awaitingResponse (rejectPending pending s) = awaitingResponse s.
Proof.
  revert s. induction pending as [|it rest IH]; intros s; simpl; [reflexivity|].
  now rewrite IH.
Qed.

(** The close listener leaves the in-flight flag as it finds it. *)
Lemma onClose_keeps_flag w code reason rnd (s : State) :
  awaitingResponse (onClose w code reason rnd s) = awaitingResponse s.
Proof.
  unfold onClose.
  set (s1 := emit (EvClose code reason)
               (stopHeartbeat (log warn "WebSocket closed" (setStatus closed s)))).
  assert (H1 : still s s1) by (unfold s1; auto 10 with still).
  match goal with
  | |- context [foldl ?f ?x (queue s1)] =>
      assert (H2 : still (rejectPending (queue s1) s1) (foldl f x (queue s1)))
  end.
  { apply still_settle_all. case_match; auto 10 with still. }
  rewrite (still_flag _ _ H2), rejectPending_flag. apply (still_flag _ _ H1).
Qed.

(** ** The heartbeat *)

Lemma HeartbeatOff_step (s : State) (i : Input) :
  HeartbeatOff s -> HeartbeatOff (step s i).
Proof.
  intros (Hoff & Ht & Hp).
  destruct (heartbeat_input_or_not i) as [->|Hi].
  - simpl. rewrite Ht. now repeat split.
  - destruct (mild_step s i Hi) as [Ho _ Hh Hp' _]. repeat split.
    + now rewrite Ho.
    + auto.
    + now rewrite Hp'.
Qed.

Lemma HeartbeatOff_run (s : State) (inputs : list Input) :
  HeartbeatOff s -> HeartbeatOff (run s inputs).
Proof.
  revert s. induction inputs as [|i inputs IH]; intros s HS; simpl; [assumption|].
  apply IH. now apply HeartbeatOff_step.
Qed.

(** C6 as amended: heartbeat disable rule.  A client constructed with
    [heartbeatIntervalMs] equal to 0, or present and holding
    [null]/[undefined], never starts the heartbeat: in every run no
    heartbeat timer is armed and no probe is issued.  (A client constructed
    without the key gets the default of 15000 ms.) *)
Theorem heartbeat_disabled (u : string) (o : ValisClientOptions)
    (inputs : list Input) :
  opt_heartbeatIntervalMs o = given (Some 0%Z) \/
  opt_heartbeatIntervalMs o = given None ->
  heartbeatTimer (run (new u o) inputs) = None /\
  probes (trace (run (new u o) inputs)) = [].
Proof.
  intros Ho.
  assert (H : HeartbeatOff (run (new u o) inputs)).
  { apply HeartbeatOff_run. repeat split. simpl.
    destruct Ho as [-> | ->]; reflexivity. }
  destruct H as (_ & H1 & H2). auto.
Qed.

(** C8: heartbeat non-interference.  Whatever the state and the input, a
    probe is issued only by the expiry of the heartbeat interval, and only
    when the queue is empty, the in-flight flag is down and no queued request
    is in flight; an expiry that finds the flag up or the queue non-empty
    changes nothing. *)
Theorem heartbeat_probes_only_when_idle (s : State) (i : Input) :
  (probes (trace (step s i)) = probes (trace s) \/
   (i = HeartbeatTimerFires /\
    queue s = [] /\ awaitingResponse s = false /\
    filter (in_flight s) (queue s) = [] /\
    probes (trace (step s i)) = probes (trace s) ++ [Probe])) /\
  (step s HeartbeatTimerFires = s \/
   (queue s = [] /\ awaitingResponse s = false)).
Proof.
  assert (Hb : step s HeartbeatTimerFires = s \/
               (queue s = [] /\ awaitingResponse s = false /\
                step s HeartbeatTimerFires
                = sendCommand (CmdText "network") true (does Probe s))).
  { simpl. destruct (heartbeatTimer s); [|now left]. unfold heartbeatTick.
    destruct (awaitingResponse s); [now left|].
    destruct (queue s); [|now left]. right. auto. }
  split.
  - destruct (heartbeat_input_or_not i) as [->|Hi].
    + destruct Hb as [->|(Hq & Hf & ->)]; [now left|right].
      repeat split; try assumption.
      * now rewrite Hq.
      * rewrite (mild_probes (does Probe s)) by auto with mild.
        simpl. now rewrite probes_snoc.
    + left. now apply mild_probes, mild_step.
  - destruct Hb as [?|(? & ? & _)]; auto.
Qed.

(** ** connect() *)

Lemma new_socket_not_OPEN (s : State) (k : Socket) :
  readyState k = CONNECTING ->
  ws_is_OPEN
    (set_connectPromise (Some (length (sockets s)))
       (set_ws (Some (length (sockets s)))
          (set_sockets (sockets s ++ [k])
             (setStatus connecting (set_manualClose false s))))) = false.
Proof.
  intros Hk. unfold ws_is_OPEN. simpl.
  rewrite lookup_app_r by lia. rewrite Nat.sub_diag. simpl. now rewrite Hk.
Qed.

(** While the record of the client is intact, [connect()] is idempotent:
    with the socket in [this.ws] open it returns at once, with
    [this.connectPromise] set it returns that promise, and in both cases it
    changes nothing; a second call that directly follows a first one
    returns what the first returned. *)
Lemma connect_guarded (s s0 : State) :
  WebSocket_defined = true ->
  ws_is_OPEN s = true \/ (exists p, connectPromise s = Some p) ->
  step s CallConnect = s /\
  sockets (connect s).1 = sockets s /\
  connect s
  = (s, if ws_is_OPEN s then ReturnsAtOnce
        else match connectPromise s with
             | Some p => ReturnsPromise p
             | None => ReturnsAtOnce
             end) /\
  connect (connect s0).1 = connect s0.
Proof.
  intros Hw Hs.
  assert (Hc : connect s
               = (s, if ws_is_OPEN s then ReturnsAtOnce
                     else match connectPromise s with
                          | Some p => ReturnsPromise p
                          | None => ReturnsAtOnce
                          end)).
  { unfold connect. rewrite Hw. simpl.
    destruct (ws_is_OPEN s); [reflexivity|].
    destruct Hs as [?|[p ->]]; [discriminate|reflexivity]. }
  split; [simpl; now rewrite Hc|]. split; [now rewrite Hc|]. split; [exact Hc|].
  unfold connect at 2 3. rewrite Hw. simpl.
  destruct (ws_is_OPEN s0) eqn:Ho.
  - simpl. unfold connect. now rewrite Hw, Ho.
  - destruct (connectPromise s0) as [p|] eqn:Hp.
    + simpl. unfold connect. now rewrite Hw, Ho, Hp.
    + simpl. unfold connect. rewrite Hw. simpl.
      now rewrite new_socket_not_OPEN.
Qed.

(** ** Socket errors *)

(** C9: a socket error notification emits an error event and changes
    nothing else.  The status, the socket reference, the sockets, the queue,
    the in-flight flag, the armed request timers, the pending connect and
    the completions fired are what they were; the trace grows by the error
    event (and by the log entry when a log sink is configured). *)
Theorem socket_error_only_emits (s : State) (w : nat) (err : option Error) :
  let s' := step s (SocketError w err) in
  status s' = status s /\
  ws s' = ws s /\
  sockets s' = sockets s /\
  queue s' = queue s /\
  awaitingResponse s' = awaitingResponse s /\
  requestTimers s' = requestTimers s /\
  connectPromise s' = connectPromise s /\
  heartbeatTimer s' = heartbeatTimer s /\
  reconnectAttempt s' = reconnectAttempt s /\
  manualClose s' = manualClose s /\
  waiters s' = waiters s /\
  settled (trace s') = settled (trace s) /\
  match sockets s !! w with
  | Some k =>
      if listeners k
      then trace s'
           = trace s ++ Emit (EvError (nullish err WebSocketError))
               :: match onLog (opts s) with
                  | Some _ => [Log error "WebSocket error"]
                  | None => []
                  end
      else s' = s
  | None => s' = s
  end.
Proof.
  simpl. destruct (sockets s !! w) as [k|]; [|now repeat split].
  destruct (listeners k); [|now repeat split].
  unfold onError, log, emit. simpl.
  destruct (onLog (opts s)); simpl; repeat split;
    rewrite ?settled_snoc, ?app_nil_r, <- ?app_assoc; reflexivity.
Qed.

(** ** Steps that emit no [reconnecting] event *)

Lemma reconnectings_snoc (tr : list Effect) (e : Effect) :
  reconnectings (tr ++ [e]) = reconnectings tr ++ reconnectings [e].
Proof. apply omap_app. Qed.

Lemma hushed_refl (s : State) : hushed s s.
Proof. reflexivity. Qed.

Lemma hushed_same (s0 s s' : State) :
  trace s' = trace s -> hushed s0 s -> hushed s0 s'.
Proof. unfold hushed. intros ->. auto. Qed.

Lemma hushed_does (e : Effect) (s0 s : State) :
  is_reconnecting e = false -> hushed s0 s -> hushed s0 (does e s).
Proof.
  unfold hushed. intros He H. simpl. rewrite reconnectings_snoc, H.
  destruct e as [[]| | | | | | | | |]; try discriminate; apply app_nil_r.
Qed.

Lemma hushed_set_ws v (s0 s : State) : hushed s0 s -> hushed s0 (set_ws v s).
Proof. now apply hushed_same. Qed.

Lemma hushed_setStatus v (s0 s : State) : hushed s0 s -> hushed s0 (setStatus v s).
Proof. now apply hushed_same. Qed.

Lemma hushed_set_reconnectAttempt v (s0 s : State) :
  hushed s0 s -> hushed s0 (set_reconnectAttempt v s).
Proof. now apply hushed_same. Qed.

Lemma hushed_set_connectPromise v (s0 s : State) :
  hushed s0 s -> hushed s0 (set_connectPromise v s).
Proof. now apply hushed_same. Qed.

Lemma hushed_set_heartbeatTimer v (s0 s : State) :
  hushed s0 s -> hushed s0 (set_heartbeatTimer v s).
Proof. now apply hushed_same. Qed.

Lemma hushed_set_awaitingResponse v (s0 s : State) :
  hushed s0 s -> hushed s0 (set_awaitingResponse v s).
Proof. now apply hushed_same. Qed.

Lemma hushed_set_manualClose v (s0 s : State) :
  hushed s0 s -> hushed s0 (set_manualClose v s).
Proof. now apply hushed_same. Qed.

Lemma hushed_set_queue v (s0 s : State) : hushed s0 s -> hushed s0 (set_queue v s).
Proof. now apply hushed_same. Qed.

Lemma hushed_set_sockets v (s0 s : State) :
  hushed s0 s -> hushed s0 (set_sockets v s).
Proof. now apply hushed_same. Qed.

Lemma hushed_set_requestTimers v (s0 s : State) :
  hushed s0 s -> hushed s0 (set_requestTimers v s).
Proof. now apply hushed_same. Qed.

Lemma hushed_set_reconnectTimers v (s0 s : State) :
  hushed s0 s -> hushed s0 (set_reconnectTimers v s).
Proof. now apply hushed_same. Qed.

Lemma hushed_set_waiters v (s0 s : State) :
  hushed s0 s -> hushed s0 (set_waiters v s).
Proof. now apply hushed_same. Qed.

Lemma hushed_set_nextId v (s0 s : State) : hushed s0 s -> hushed s0 (set_nextId v s).
Proof. now apply hushed_same. Qed.

Create HintDb hushed discriminated.
#[local] Hint Resolve hushed_refl hushed_does hushed_set_ws hushed_setStatus
  hushed_set_reconnectAttempt hushed_set_connectPromise hushed_set_heartbeatTimer
  hushed_set_awaitingResponse hushed_set_manualClose hushed_set_queue
  hushed_set_sockets hushed_set_requestTimers hushed_set_reconnectTimers
  hushed_set_waiters hushed_set_nextId : hushed.

Ltac hushed_by_parts :=
  intros; repeat case_match; simpl; auto 20 with hushed.

Lemma hushed_emit (e : Event) (s0 s : State) :
  is_reconnecting (Emit e) = false -> hushed s0 s -> hushed s0 (emit e s).
Proof. unfold emit. auto with hushed. Qed.

Lemma hushed_log lv msg (s0 s : State) : hushed s0 s -> hushed s0 (log lv msg s).
Proof. unfold log. hushed_by_parts. Qed.

Lemma hushed_socket_close w (s0 s : State) :
  hushed s0 s -> hushed s0 (socket_close w s).
Proof. unfold socket_close. hushed_by_parts. Qed.

Lemma hushed_cleanup w (s0 s : State) : hushed s0 s -> hushed s0 (cleanup w s).
Proof. unfold cleanup. hushed_by_parts. Qed.

Lemma hushed_disarm w (s0 s : State) : hushed s0 s -> hushed s0 (disarm w s).
Proof. unfold disarm. hushed_by_parts. Qed.

Lemma hushed_set_readyState r w (s0 s : State) :
  hushed s0 s -> hushed s0 (set_readyState r w s).
Proof. unfold set_readyState. hushed_by_parts. Qed.

Lemma hushed_clearTimeout id (s0 s : State) :
  hushed s0 s -> hushed s0 (clearTimeout id s).
Proof. unfold clearTimeout. hushed_by_parts. Qed.

Lemma hushed_stopHeartbeat (s0 s : State) :
  hushed s0 s -> hushed s0 (stopHeartbeat s).
Proof. unfold stopHeartbeat. hushed_by_parts. Qed.

#[local] Hint Resolve hushed_emit hushed_log hushed_socket_close hushed_cleanup
  hushed_disarm hushed_set_readyState hushed_clearTimeout hushed_stopHeartbeat
  : hushed.

Lemma hushed_startHeartbeat (s0 s : State) :
  hushed s0 s -> hushed s0 (startHeartbeat s).
Proof. unfold startHeartbeat. hushed_by_parts. Qed.

Lemma hushed_flushQueue (s0 s : State) : hushed s0 s -> hushed s0 (flushQueue s).
Proof. unfold flushQueue. hushed_by_parts. Qed.

Lemma hushed_maybeReconnectOnTimeout (s0 s : State) :
  hushed s0 s -> hushed s0 (maybeReconnectOnTimeout s).
Proof. unfold maybeReconnectOnTimeout. hushed_by_parts. Qed.

#[local] Hint Resolve hushed_startHeartbeat hushed_flushQueue
  hushed_maybeReconnectOnTimeout : hushed.

Lemma hushed_connect (s0 s : State) : hushed s0 s -> hushed s0 (connect s).1.
Proof. unfold connect. hushed_by_parts. Qed.

Lemma hushed_disconnect code reason (s0 s : State) :
  hushed s0 s -> hushed s0 (disconnect code reason s).
Proof. unfold disconnect. hushed_by_parts. Qed.

Lemma hushed_heartbeat_settled hb ok (s0 s : State) :
  hushed s0 s -> hushed s0 (heartbeat_settled hb ok s).
Proof. unfold heartbeat_settled. hushed_by_parts. Qed.

Lemma hushed_enqueue text hb (s0 s : State) :
  hushed s0 s -> hushed s0 (enqueue text hb s).
Proof. unfold enqueue. hushed_by_parts. Qed.

Lemma hushed_onError err (s0 s : State) : hushed s0 s -> hushed s0 (onError err s).
Proof. unfold onError. hushed_by_parts. Qed.

#[local] Hint Resolve hushed_connect hushed_disconnect hushed_heartbeat_settled
  hushed_enqueue hushed_onError : hushed.

Lemma hushed_sendCommand c hb (s0 s : State) :
  hushed s0 s -> hushed s0 (sendCommand c hb s).
Proof.
  unfold sendCommand. intros H. case_match; [auto with hushed|].
  pose proof (hushed_connect s0 s H) as Hc.
  destruct (connect s) as [s1 [e| |p]]; simpl in Hc; auto 10 with hushed.
Qed.

Lemma hushed_requestTimeout t (s0 s : State) :
  hushed s0 s -> hushed s0 (requestTimeout t s).
Proof. unfold requestTimeout. hushed_by_parts. Qed.

Lemma hushed_resume w (s0 s : State) : hushed s0 s -> hushed s0 (resume w s).
Proof.
  unfold resume. intros H.
  generalize (filter (fun x => awaited x = w) (waiters s)).
  assert (H' : hushed s0 (set_waiters (filter (fun x => awaited x ≠ w) (waiters s)) s))
    by auto with hushed.
  revert H'. generalize (set_waiters (filter (fun x => awaited x ≠ w) (waiters s)) s).
  intros s1 H1 l. revert s1 H1.
  induction l as [|x l IH]; intros s1 H1; simpl; [assumption|].
  apply IH. auto with hushed.
Qed.

Lemma hushed_abandon w e (s0 s : State) : hushed s0 s -> hushed s0 (abandon w e s).
Proof.
  unfold abandon. intros H.
  generalize (filter (fun x => awaited x = w) (waiters s)).
  assert (H' : hushed s0 (set_waiters (filter (fun x => awaited x ≠ w) (waiters s)) s))
    by auto with hushed.
  revert H'. generalize (set_waiters (filter (fun x => awaited x ≠ w) (waiters s)) s).
  intros s1 H1 l. revert s1 H1.
  induction l as [|x l IH]; intros s1 H1; simpl; [assumption|].
  apply IH. auto 10 with hushed.
Qed.

Lemma hushed_onOpen w (s0 s : State) : hushed s0 s -> hushed s0 (onOpen w s).
Proof. unfold onOpen. hushed_by_parts. Qed.

Lemma hushed_onMessage d (s0 s : State) : hushed s0 s -> hushed s0 (onMessage d s).
Proof. unfold onMessage. hushed_by_parts. Qed.

Lemma hushed_rejectPending (l : list QueueItem) (s0 s : State) :
  hushed s0 s -> hushed s0 (rejectPending l s).
Proof.
  revert s. induction l as [|x l IH]; intros s H; simpl; [assumption|].
  apply IH. auto 10 with hushed.
Qed.

Lemma hushed_settle_all (l : list QueueItem) (s0 s : State) :
  hushed s0 s ->
  hushed s0 (foldl (fun s it =>
                      heartbeat_settled (from_heartbeat (completion it)) false s)
                   s l).
Proof.
  revert s. induction l as [|x l IH]; intros s H; simpl; [assumption|].
  apply IH. auto with hushed.
Qed.

#[local] Hint Resolve hushed_sendCommand hushed_requestTimeout hushed_resume
  hushed_abandon hushed_onOpen hushed_onMessage hushed_rejectPending
  hushed_settle_all : hushed.

Lemma hushed_connectTimedOut w (s0 s : State) :
  hushed s0 s -> hushed s0 (connectTimedOut w s).
Proof. unfold connectTimedOut. intros. case_match; auto 10 with hushed. Qed.

Lemma hushed_heartbeatTick (s0 s : State) :
  hushed s0 s -> hushed s0 (heartbeatTick s).
Proof. unfold heartbeatTick. intros. case_match; auto 10 with hushed. Qed.

#[local] Hint Resolve hushed_connectTimedOut hushed_heartbeatTick : hushed.

(** The close listener emits one [reconnecting] event when it schedules a
    reconnect, with the counter it finds plus one and the delay computed
    from the counter it finds, and none otherwise. *)
Lemma reconnectings_onClose w code reason rnd (s : State) :
  reconnectings (trace (onClose w code reason rnd s))
  = reconnectings (trace s)
      ++ (if negb (manualClose s) && bool_decide (reconnect (opts s) = Some true)
          then [(S (reconnectAttempt s),
                 reconnectDelay (opts s) (reconnectAttempt s) rnd)]
          else []).
Proof.
  unfold onClose.
  set (s1 := emit (EvClose code reason)
               (stopHeartbeat (log warn "WebSocket closed" (setStatus closed s)))).
  assert (H1 : hushed s s1) by (unfold s1; auto 10 with hushed).
  assert (F1 : manualClose s1 = manualClose s /\ opts s1 = opts s /\
               reconnectAttempt s1 = reconnectAttempt s).
  { unfold s1, stopHeartbeat, log. repeat case_match; simpl; auto. }
  destruct F1 as (Fm & Fo & Fa).
  assert (H2 : steady s1 (rejectPending (queue s1) s1)) by auto with steady.
  assert (H2' : hushed s (rejectPending (queue s1) s1)) by auto with hushed.
  set (s2 := rejectPending (queue s1) s1) in *.
  set (s3 := set_connectPromise None (set_ws None (cleanup w s2))).
  assert (H3 : hushed s s3) by (unfold s3; auto 10 with hushed).
  assert (F3 : manualClose s3 = manualClose s /\ opts s3 = opts s /\
               reconnectAttempt s3 = reconnectAttempt s).
  { destruct H2. unfold s3. simpl. repeat split; congruence. }
  destruct F3 as (Gm & Go & Ga).
  cbv zeta. fold s1. fold s2. fold s3. clearbody s3.
  match goal with
  | |- context [foldl ?f ?x (queue s1)] =>
      assert (H4 : hushed x (foldl f x (queue s1)))
        by (apply hushed_settle_all, hushed_refl);
      rewrite H4
  end.
  rewrite Gm, Go.
  destruct (negb (manualClose s) && bool_decide (reconnect (opts s) = Some true)).
  - unfold scheduleReconnect, emit. simpl. rewrite reconnectings_snoc. simpl.
    rewrite H3, Ga, Go. reflexivity.
  - rewrite H3. now rewrite app_nil_r.
Qed.

(** Only a close event that schedules a reconnect emits a [reconnecting]
    event. *)
Lemma reconnectings_step (s : State) (i : Input) :
  reconnectings (trace (step s i))
  = reconnectings (trace s)
      ++ match i with
         | SocketCloses w code reason rnd =>
             if hears_close w s && negb (manualClose s)
                && bool_decide (reconnect (opts s) = Some true)
             then [(S (reconnectAttempt s),
                    reconnectDelay (opts s) (reconnectAttempt s) rnd)]
             else []
         | _ => []
         end.
Proof.
  assert (Hq : forall s', hushed s s' ->
            reconnectings (trace s') = reconnectings (trace s) ++ []).
  { intros s' H. now rewrite app_nil_r. }
  destruct i; simpl; try (apply Hq; repeat case_match; auto 10 with hushed).
  unfold hears_close.
  destruct (sockets s !! w) as [k|]; simpl; [|now rewrite app_nil_r].
  destruct (negb (is_CLOSED (readyState k)) && listeners k); simpl;
    [|now rewrite app_nil_r].
  rewrite reconnectings_onClose. reflexivity.
Qed.

(** The count of [attempts] is the number of [reconnecting] events since
    the last [open] event. *)
Lemma attempts_since (n : nat) (post : list Effect) :
  Emit EvOpen ∉ post ->
  foldl count_attempt n post = n + length (reconnectings post).
Proof.
  revert n. induction post as [|e post IH]; intros n Hno; simpl; [lia|].
  apply not_elem_of_cons in Hno as [He Hno].
  rewrite IH by assumption.
  destruct e as [[]| | | | | | | | |]; simpl; try lia. congruence.
Qed.

Lemma attempts_since_open (pre post : list Effect) :
  Emit EvOpen ∉ post ->
  attempts (pre ++ Emit EvOpen :: post) = length (reconnectings post).
Proof.
  intros Hno. unfold attempts. rewrite foldl_app. simpl.
  now rewrite attempts_since.
Qed.

(** ** The attempt number of the [reconnecting] event *)

(** C10: the [reconnecting] event reports the counter after the increment.
    In every run, let [k] be the number of [reconnecting] events emitted
    since the last [open] event (or since the start when there was none):
    the attempt counter of the client is [k]; the next input emits a
    [reconnecting] event exactly when it is the close event of a socket that
    is listened to, the close is not manual and [reconnect] is on; and that
    event carries [attempt = k + 1] and the delay
    [Math.floor(base + base * jitter * rnd)] with
    [base = Math.min(maxDelay, initialDelay * Math.pow(2, k))], computed in
    doubles from the exponent [k] and the draw [rnd] of that close. *)
Theorem reconnecting_reports_incremented_attempt (u : string)
    (o : ValisClientOptions) (inputs : list Input) (i : Input) :
  let s := run (new u o) inputs in
  let k := attempts (trace s) in
  let maxDelay := nullish (reconnectMaxDelayMs (mergeOptions o)) 12000%float in
  let initialDelay := nullish (reconnectInitialDelayMs (mergeOptions o)) 500%float in
  let jitter :=
    nullish (reconnectJitter (mergeOptions o)) 0x1.999999999999ap-3%float in
  (forall pre post,
     trace s = pre ++ Emit EvOpen :: post -> Emit EvOpen ∉ post ->
     k = length (reconnectings post)) /\
  (Emit EvOpen ∉ trace s -> k = length (reconnectings (trace s))) /\
  reconnectAttempt s = k /\
  reconnectings (trace (step s i))
  = reconnectings (trace s)
      ++ match i with
         | SocketCloses w code reason rnd =>
             if hears_close w s && negb (manualClose s)
                && bool_decide (reconnect (mergeOptions o) = Some true)
             then
               let base := Math_min maxDelay (initialDelay * Math_pow2 k)%float in
               [(S k, Math_floor (base + base * jitter * rnd)%float)]
             else []
         | _ => []
         end.
Proof.
  intros s k maxDelay initialDelay jitter.
  assert (Hn : reconnectAttempt s = k) by apply Counted_run, Counted_new.
  assert (Ho : opts s = mergeOptions o) by apply opts_run.
  split.
  { intros pre post Htr Hno. unfold k. rewrite Htr.
    now apply attempts_since_open. }
  split.
  { intros Hno. unfold k, attempts. now rewrite attempts_since. }
  split; [assumption|].
  rewrite reconnectings_step, Hn, Ho. reflexivity.
Qed.


End Client.

Arguments CmdText {Json} text.
Arguments CmdObject {Json} obj.
Arguments Text {Json} text.
Arguments Decoded {Json} j.
Arguments Binary {Json} blob.
Arguments EvOpen {Json}.
Arguments EvClose {Json} code reason.
Arguments EvError {Json} e.
Arguments EvMessage {Json} d.
Arguments EvReconnecting {Json} attempt delayMs.
Arguments EvHeartbeat {Json} ok.
Arguments Emit {Json} e.
Arguments Log {Json} level msg.
Arguments Enqueued {Json} who text.
Arguments Send {Json} sock who text.
Arguments Resolved {Json} who d.
Arguments Rejected {Json} who e.
Arguments ConnectResolved {Json} sock.
Arguments ConnectRejected {Json} sock e.
Arguments CommandFailed {Json} c e.
Arguments Probe {Json}.
Arguments CallConnect {Json}.
Arguments CallDisconnect {Json} code reason.
Arguments CallSendCommand {Json} c.
Arguments SocketOpens {Json} w.
Arguments SocketMessage {Json} w d.
Arguments SocketCloses {Json} w code reason rnd.
Arguments SocketError {Json} w err.
Arguments RequestTimerFires {Json} id.
Arguments ConnectTimerFires {Json} w.
Arguments HeartbeatTimerFires {Json}.
Arguments ReconnectTimerFires {Json}.
Arguments ws {Json} s.
Arguments status {Json} s.
Arguments opts {Json} s.
Arguments reconnectAttempt {Json} s.
Arguments connectPromise {Json} s.
Arguments heartbeatTimer {Json} s.
Arguments awaitingResponse {Json} s.
Arguments queue {Json} s.
Arguments sockets {Json} s.
Arguments requestTimers {Json} s.
Arguments trace {Json} s.
Arguments new {Json} u o.
Arguments ws_is_OPEN {Json} s.
Arguments connect {Json} WebSocket_defined s.
Arguments manualClose {Json} s.
Arguments waiters {Json} s.
Arguments nextId {Json} s.
Arguments reconnectTimers {Json} s.
Arguments reconnectings {Json} tr.
Arguments Issue {Json} c.
Arguments Answer {Json} d.
Arguments traffic_input {Json} w t.
Arguments scheduleReconnect {Json} rnd s.
Arguments step {Json} JSON_parse JSON_stringify WebSocket_defined s i.
Arguments run {Json} JSON_parse JSON_stringify WebSocket_defined s inputs.
Arguments enqueued {Json} tr.
Arguments written {Json} tr.
Arguments settled {Json} tr.
Arguments failures {Json} tr.
Arguments probes {Json} tr.
Arguments attempts {Json} tr.

(** * Concrete runs *)

(** The runs below are those of a host where [WebSocket] is defined. *)
Abbreviation host_step := (step opaque_parse plain_stringify true).
Abbreviation host_run := (run opaque_parse plain_stringify true).

(** The first test of the repository: two commands sent back to back go
    out one at a time, in order. *)
Example sends_in_order :
  let sent tr := written (trace (host_run (new "wss://test" quiet_options) tr)) in
  let both :=
    [CallConnect; SocketOpens 0;
     CallSendCommand (CmdText "network"); CallSendCommand (CmdText "tokens")] in
  sent both = [(0, "network")] /\
  sent (both ++ [SocketMessage 0 (Text "{ok:1}")])
  = [(0, "network"); (1, "tokens")].
Proof. split; reflexivity. Qed.

(** The second test: the only request times out, the socket is closed by
    the client, and the reconnect timer opens a second socket. *)
Example times_out_then_reconnects :
  let s :=
    host_run (new "wss://timeout" quiet_options)
      [CallConnect; SocketOpens 0; CallSendCommand (CmdText "network");
       RequestTimerFires 0; SocketCloses 0 4001 "timeout" 0;
       ReconnectTimerFires; SocketOpens 1] in
  failures (trace s) = [(0, RequestTimedOut (Some 10%Z))] /\
  readyState <$> sockets s = [CLOSED; OPEN] /\
  ws s = Some 1.
Proof. repeat split; reflexivity. Qed.

(** The third test: an idle open connection gets a probe. *)
Example emits_heartbeat :
  let s :=
    host_run (new "wss://hb" noOptions)
      [CallConnect; SocketOpens 0; HeartbeatTimerFires;
       SocketMessage 0 (Text "{beat:ok}")] in
  written (trace s) = [(1, "network")] /\
  Emit (EvHeartbeat true) ∈ trace s.
Proof. split; [reflexivity|]. vm_compute. repeat constructor. Qed.

(** A close event of a socket that is no longer [this.ws].  The request
    times out and the client closes socket 0; a command sent before the close
    event arrives opens socket 1; the close listener of socket 0 then resets
    [this.ws] and [this.connectPromise] all the same, and the reconnect timer
    opens socket 2 while socket 1 is still connecting. *)
Example stale_close_forgets_pending_connect :
  let before :=
    host_run (new "wss://test" quiet_options)
      [CallConnect; SocketOpens 0; CallSendCommand (CmdText "network");
       RequestTimerFires 0; CallSendCommand (CmdText "tokens")] in
  let after := host_step before (SocketCloses 0 4001 "timeout" 0) in
  let again := host_step after ReconnectTimerFires in
  (ws before, connectPromise before) = (Some 1, Some 1) /\
  (ws after, connectPromise after) = (None, None) /\
  readyState <$> sockets after = [CLOSED; CONNECTING] /\
  (ws again, connectPromise again) = (Some 2, Some 2) /\
  readyState <$> sockets again = [CLOSED; CONNECTING; CONNECTING].
Proof. repeat split; reflexivity. Qed.

(** C7, failing run: [connect()], [disconnect()], [connect()], then the
    close event of the first socket.  While the second attempt is pending,
    [connect()] returns its promise and changes nothing.  The close listener
    of the first socket then resets [this.ws] and [this.connectPromise],
    which by now belong to the second attempt, and the next [connect()]
    opens a third socket while the second is still connecting.  When the
    second socket has opened before the close event arrives, the next
    [connect()] opens a third socket beside the open one. *)
Theorem connect_forgets_attempt_in_flight :
  let first :=
    host_run (new "wss://test" quiet_options)
      [CallConnect; CallDisconnect None None; CallConnect] in
  let stale := host_step first (SocketCloses 0 1000 "" 0) in
  let opened := host_run first [SocketOpens 1; SocketCloses 0 1000 "" 0] in
  readyState <$> sockets first = [CLOSING; CONNECTING] /\
  connect true first = (first, ReturnsPromise 1) /\
  readyState <$> sockets stale = [CLOSED; CONNECTING] /\
  (ws stale, connectPromise stale) = (None, None) /\
  snd (connect true stale) = ReturnsPromise 2 /\
  readyState <$> sockets (fst (connect true stale))
  = [CLOSED; CONNECTING; CONNECTING] /\
  readyState <$> sockets opened = [CLOSED; OPEN] /\
  status opened = reconnecting /\
  snd (connect true opened) = ReturnsPromise 2 /\
  readyState <$> sockets (fst (connect true opened)) = [CLOSED; OPEN; CONNECTING].
Proof. vm_compute. repeat split. Qed.

(** Witness of C1: two commands and one reply at a client that has just
    opened. *)
Lemma single_flight_fifo_witness :
  let s :=
    host_run (new "wss://test" quiet_options) [CallConnect; SocketOpens 0] in
  let k := {| sock_url := "wss://test"; readyState := OPEN;
              listeners := true; connectTimeout := false |} in
  let traffic :=
    [Issue (CmdText "network"); Issue (CmdText "tokens");
     Answer (Text "{ok:1}")] in
  let s' := host_run s (map (traffic_input 0) traffic) in
  (ws_is_OPEN s = true /\ ws s = Some 0 /\ sockets s !! 0 = Some k /\
   readyState k = OPEN /\ listeners k = true /\
   queue s = [] /\ awaitingResponse s = false) /\
  written (trace (host_step s (CallSendCommand (CmdText "network"))))
  = written (trace s) ++ [(0, "network")] /\
  exists done,
    enqueued (trace s') = enqueued (trace s) ++ done ++ map key (queue s') /\
    (done ++ map key (queue s')).*2 = ["network"; "tokens"] /\
    length (queue s') = 1 /\
    settled (trace s') = settled (trace s) ++ done.*1 /\
    written (trace s') = written (trace s) ++ done ++ map key (take 1 (queue s')).
Proof.
  split; [repeat split; reflexivity|].
  pose proof (single_flight_fifo unit opaque_parse plain_stringify true
                "wss://test" quiet_options [CallConnect; SocketOpens 0]
                (Text "") (CmdText "network")) as H.
  cbv zeta in H.
  destruct H as (_ & _ & _ & _ & _ & _ & _ & _ & Hsend & Htraffic).
  split.
  - exact (proj2 (proj2 (Hsend eq_refl))).
  - exact (Htraffic 0
             {| sock_url := "wss://test"; readyState := OPEN;
                listeners := true; connectTimeout := false |}
             [Issue (CmdText "network"); Issue (CmdText "tokens");
              Answer (Text "{ok:1}")]
             eq_refl eq_refl eq_refl eq_refl eq_refl eq_refl).
Defined.

(** Witness of C2. *)
Lemma request_times_out_witness :
  let s :=
    host_run (new "wss://timeout" quiet_options)
      [CallConnect; SocketOpens 0; CallSendCommand (CmdText "network")] in
  let t :=
    {| timer_id := 0; timer_payload := "network";
       timer_completion := {| rid := 0; from_heartbeat := false |} |} in
  requestTimers s = [t] /\
  failures (trace (host_step s (RequestTimerFires 0)))
  = failures (trace s) ++ [(0, RequestTimedOut (Some 10%Z))].
Proof.
  split; [reflexivity|].
  exact (proj1 (request_times_out unit opaque_parse plain_stringify true
                  "wss://timeout" quiet_options
                  [CallConnect; SocketOpens 0; CallSendCommand (CmdText "network")]
                  []
                  {| timer_id := 0; timer_payload := "network";
                     timer_completion := {| rid := 0; from_heartbeat := false |} |}
                  [] eq_refl)).
Defined.

(** Witness of C3. *)
Lemma close_drains_queue_witness :
  let s :=
    host_run (new "wss://test" quiet_options)
      [CallConnect; SocketOpens 0;
       CallSendCommand (CmdText "network"); CallSendCommand (CmdText "tokens")] in
  let k := {| sock_url := "wss://test"; readyState := OPEN;
              listeners := true; connectTimeout := false |} in
  sockets s !! 0 = Some k /\ listeners k = true /\ readyState k <> CLOSED /\
  queue (host_step s (SocketCloses 0 1006 "" 0)) = [].
Proof.
  split; [reflexivity|]. split; [reflexivity|]. split; [discriminate|].
  refine (proj1 (close_drains_queue unit opaque_parse plain_stringify true
                   "wss://test" quiet_options
                   [CallConnect; SocketOpens 0;
                    CallSendCommand (CmdText "network");
                    CallSendCommand (CmdText "tokens")]
                   0 1006%Z "" 0%float
                   {| sock_url := "wss://test"; readyState := OPEN;
                      listeners := true; connectTimeout := false |}
                   eq_refl eq_refl _)).
  discriminate.
Defined.

(** C4, failing run: the socket closes while "network" is in flight.  The
    close listener rejects the request and leaves the flag up; after the
    reconnect, the next command stays in the queue and is not written. *)
Theorem close_leaves_flag_up :
  let dropped :=
    host_run (new "wss://test" noOptions)
      [CallConnect; SocketOpens 0; CallSendCommand (CmdText "network");
       SocketCloses 0 1006 "" 0] in
  let next :=
    host_run dropped
      [ReconnectTimerFires; SocketOpens 1; CallSendCommand (CmdText "tokens")] in
  failures (trace dropped) = [(1, ConnectionClosed)] /\
  queue dropped = [] /\
  awaitingResponse dropped = true /\
  ws_is_OPEN next = true /\
  payload <$> queue next = ["tokens"] /\
  awaitingResponse next = true /\
  written (trace next) = [(1, "network")].
Proof. repeat split; reflexivity. Qed.

(** C6 as stated fails: a client constructed without [heartbeatIntervalMs]
    starts the heartbeat on open, and the first expiry issues a probe. *)
Lemma heartbeat_starts_when_interval_absent :
  let s :=
    host_run (new "wss://hb" noOptions)
      [CallConnect; SocketOpens 0; HeartbeatTimerFires] in
  opt_heartbeatIntervalMs noOptions = absent /\
  heartbeatTimer s = Some 0 /\
  probes (trace s) = [Probe] /\
  written (trace s) = [(1, "network")] /\
  ~ (heartbeatTimer s = None /\ probes (trace s) = []).
Proof.
  repeat split; try reflexivity. intros [H _]. discriminate H.
Qed.

(** Witness of C6 as amended. *)
Lemma heartbeat_disabled_witness :
  opt_heartbeatIntervalMs quiet_options = given (Some 0%Z) /\
  heartbeatTimer
    (host_run (new "wss://test" quiet_options)
       [CallConnect; SocketOpens 0; HeartbeatTimerFires]) = None.
Proof.
  split; [reflexivity|].
  exact (proj1 (heartbeat_disabled unit opaque_parse plain_stringify true
                  "wss://test" quiet_options
                  [CallConnect; SocketOpens 0; HeartbeatTimerFires]
                  (or_introl eq_refl))).
Defined.

(** Witness of C10: the second reconnect in a row reports attempt 2 and
    the delay of exponent 1. *)
Lemma reconnecting_reports_incremented_attempt_witness :
  let inputs : list (Input unit) :=
    [CallConnect; SocketOpens 0; SocketCloses 0 1006 "" 0.5;
     ReconnectTimerFires] in
  let s := host_run (new "wss://test" quiet_options) inputs in
  trace s
  = [Emit EvOpen; ConnectResolved 0; Emit (EvClose 1006 "");
     Emit (EvReconnecting 1 550)] /\
  attempts (trace s) = 1 /\
  reconnectings (trace (host_step s (SocketCloses 1 1006 "" 0.25)))
  = [(1, 550%float)] ++ [(2, 1050%float)].
Proof.
  pose proof (reconnecting_reports_incremented_attempt unit opaque_parse
                plain_stringify true "wss://test" quiet_options
                [CallConnect; SocketOpens 0; SocketCloses 0 1006 "" 0.5;
                 ReconnectTimerFires]
                (SocketCloses 1 1006 "" 0.25)) as H.
  cbv zeta in H. destruct H as (Hsince & _ & _ & Hnext).
  split; [reflexivity|]. split.
  - refine (Hsince [] [ConnectResolved 0; Emit (EvClose 1006 "");
                       Emit (EvReconnecting 1 550)] eq_refl _).
    intros Hin. repeat (apply elem_of_cons in Hin as [Hin|Hin]; [discriminate|]).
    inversion Hin.
  - exact Hnext.
Defined.
